(** * fsnotify: the platform-independent core

    A shallow embedding of [fsnotify.go]: the operation bit mask [Op] with
    its containment test and rendering, the [Event] record and its textual
    form, the recursion marker test [recursivePath], and the directory
    enumeration [findDirs].

    Go strings are byte strings; they are modelled by [string].  The type
    [Op] is [uint32], modelled by [Z] restricted to [0 <= o < 2^32]; the
    only operations the code applies to it ([&], [==] and the constant
    shifts of the [const] block) never leave that range, so no wrap-around
    has to be written out.  Paths follow the Unix flavour of
    [path/filepath], whose separator is the slash. *)

From Stdlib Require Import ZArith List Bool Ascii String Lia.
Import ListNotations.

Local Open Scope string_scope.

(** ** The operation bit mask *)

Module Event.

Definition Op := Z.

(** [type Op uint32] *)
Definition in_range (o : Op) : Prop := (0 <= o < 2 ^ 32)%Z.

(** [const ( Create Op = 1 << iota; Write; Remove; Rename; Chmod )] *)
Definition iota_shift (iota : Z) : Op := Z.shiftl 1 iota.

Definition Create : Op := iota_shift 0.
Definition Write  : Op := iota_shift 1.
Definition Remove : Op := iota_shift 2.
Definition Rename : Op := iota_shift 3.
Definition Chmod  : Op := iota_shift 4.

(** The flags in the order in which the [const] block declares them. *)
Definition declared : list Op := [Create; Write; Remove; Rename; Chmod].

(** [func (o Op) Has(h Op) bool { return o&h == h }] *)
Definition Has (o h : Op) : bool := Z.eqb (Z.land o h) h.

(** [strings.Builder]: the bytes written so far. *)
Definition Builder := string.
Definition WriteString (b : Builder) (s : string) : Builder := b ++ s.
Definition Len (b : Builder) : nat := String.length b.

(** The slice expression [s[1:]]. *)
Definition from1 (s : string) : string :=
  match s with
  | EmptyString => EmptyString
  | String _ rest => rest
  end.

(** [func (o Op) String() string] *)
Definition Op_String (o : Op) : string :=
  let b : Builder := "" in
  let b := if Has o Create then WriteString b "|CREATE" else b in
  let b := if Has o Remove then WriteString b "|REMOVE" else b in
  let b := if Has o Write  then WriteString b "|WRITE"  else b in
  let b := if Has o Rename then WriteString b "|RENAME" else b in
  let b := if Has o Chmod  then WriteString b "|CHMOD"  else b in
  if Nat.eqb (Len b) 0 then "[no events]" else from1 b.

(** [type Event struct { Name string; Op Op }] *)
Record Event := mkEvent { Name : string; EOp : Op }.

(** [func (e Event) Has(op Op) bool { return e.Op.Has(op) }] *)
Definition Event_Has (e : Event) (op : Op) : bool := Has (EOp e) op.

End Event.

(** ** The parts of the Go library the code calls: [unicode/utf8],
    [strconv.Quote] and the two [fmt] verbs of the format strings *)

Module Fmt.

Local Open Scope Z_scope.

Definition byte_val (c : ascii) : Z := Z.of_N (N_of_ascii c).
Definition byte_of (z : Z) : ascii := ascii_of_N (Z.to_N (z mod 256)).

(** The Unicode range tables behind [unicode.IsPrint] are not part of the
    repository; the test for runes above Latin-1 is an interface. *)
Class UnicodeTables := { isPrintTable : Z -> bool }.

Definition RuneError : Z := 0xFFFD.
Definition RuneSelf : Z := 0x80.
Definition MaxRune : Z := 0x10FFFF.

(** [utf8.first], written as ranges. *)
Definition first (b : Z) : Z :=
  if b <? 0x80 then 0xF0
  else if b <? 0xC2 then 0xF1
  else if b <? 0xE0 then 0x02
  else if b =? 0xE0 then 0x13
  else if b <? 0xED then 0x03
  else if b =? 0xED then 0x23
  else if b <? 0xF0 then 0x03
  else if b =? 0xF0 then 0x34
  else if b <? 0xF4 then 0x04
  else if b =? 0xF4 then 0x44
  else 0xF1.

(** [utf8.acceptRanges] *)
Definition acceptRanges (i : Z) : Z * Z :=
  if i =? 0 then (0x80, 0xBF)
  else if i =? 1 then (0xA0, 0xBF)
  else if i =? 2 then (0x80, 0x9F)
  else if i =? 3 then (0x90, 0xBF)
  else (0x80, 0x8F).

Definition cont (b : Z) : bool := (0x80 <=? b) && (b <=? 0xBF).

(** [utf8.DecodeRuneInString]: the rune at the head of [s] and its width. *)
Definition DecodeRuneInString (s : string) : Z * nat :=
  match s with
  | EmptyString => (RuneError, 0%nat)
  | String c0 t0 =>
    let s0 := byte_val c0 in
    let x := first s0 in
    if 0xF0 <=? x then
      ((if Z.odd x then RuneError else s0), 1%nat)
    else
      let sz := Z.land x 7 in
      let '(lo, hi) := acceptRanges (Z.shiftr x 4) in
      if Z.of_nat (String.length s) <? sz then (RuneError, 1%nat) else
      match t0 with
      | EmptyString => (RuneError, 1%nat)
      | String c1 t1 =>
        let s1 := byte_val c1 in
        if (s1 <? lo) || (hi <? s1) then (RuneError, 1%nat)
        else if sz <=? 2 then
          (Z.lor (Z.shiftl (Z.land s0 0x1F) 6) (Z.land s1 0x3F), 2%nat)
        else
        match t1 with
        | EmptyString => (RuneError, 1%nat)
        | String c2 t2 =>
          let s2 := byte_val c2 in
          if negb (cont s2) then (RuneError, 1%nat)
          else if sz <=? 3 then
            (Z.lor (Z.lor (Z.shiftl (Z.land s0 0x0F) 12)
                          (Z.shiftl (Z.land s1 0x3F) 6))
                   (Z.land s2 0x3F), 3%nat)
          else
          match t2 with
          | EmptyString => (RuneError, 1%nat)
          | String c3 _ =>
            let s3 := byte_val c3 in
            if negb (cont s3) then (RuneError, 1%nat)
            else
              (Z.lor (Z.lor (Z.lor (Z.shiftl (Z.land s0 0x07) 18)
                                   (Z.shiftl (Z.land s1 0x3F) 12))
                            (Z.shiftl (Z.land s2 0x3F) 6))
                     (Z.land s3 0x3F), 4%nat)
          end
        end
      end
  end.

(** [utf8.RuneCountInString].  The Go loop advances by the width of the
    rune it decoded; here [skip] counts the bytes of that rune still to be
    passed over. *)
Fixpoint runeCount (skip : nat) (s : string) : Z :=
  match s with
  | EmptyString => 0
  | String _ rest =>
    match skip with
    | S k => runeCount k rest
    | O => 1 + runeCount (snd (DecodeRuneInString s) - 1)%nat rest
    end
  end.

Definition RuneCountInString (s : string) : Z := runeCount 0 s.

(** [utf8.ValidRune] *)
Definition ValidRune (r : Z) : bool :=
  ((0 <=? r) && (r <? 0xD800)) || ((0xDFFF <? r) && (r <=? MaxRune)).

Definition str1 (z : Z) : string := String (byte_of z) EmptyString.

(** [utf8.AppendRune] *)
Definition AppendRune (r : Z) : string :=
  if r <=? 0x7F then str1 r
  else if r <=? 0x7FF then
    str1 (Z.lor 0xC0 (Z.shiftr r 6)) ++ str1 (Z.lor 0x80 (Z.land r 0x3F))
  else
    let r := if (MaxRune <? r) || ((0xD800 <=? r) && (r <=? 0xDFFF))
             then RuneError else r in
    if r <=? 0xFFFF then
      str1 (Z.lor 0xE0 (Z.shiftr r 12))
      ++ str1 (Z.lor 0x80 (Z.land (Z.shiftr r 6) 0x3F))
      ++ str1 (Z.lor 0x80 (Z.land r 0x3F))
    else
      str1 (Z.lor 0xF0 (Z.shiftr r 18))
      ++ str1 (Z.lor 0x80 (Z.land (Z.shiftr r 12) 0x3F))
      ++ str1 (Z.lor 0x80 (Z.land (Z.shiftr r 6) 0x3F))
      ++ str1 (Z.lor 0x80 (Z.land r 0x3F)).

(** [strconv.IsPrint]: Latin-1 is decided on the spot, the rest by the
    tables. *)
Definition IsPrint {U : UnicodeTables} (r : Z) : bool :=
  if r <=? 0xFF then
    if (0x20 <=? r) && (r <=? 0x7E) then true
    else if (0xA1 <=? r) && (r <=? 0xFF) then negb (r =? 0xAD)
    else false
  else isPrintTable r.

(** [lowerhex[i]] *)
Definition lowerhex (i : Z) : string :=
  String.substring (Z.to_nat i) 1 "0123456789abcdef".

(** The loop [for s := k; s >= 0; s -= 4] of [appendEscapedRune], over the
    number of hexadecimal digits still to emit. *)
Fixpoint hexDigits (n : nat) (r : Z) : string :=
  match n with
  | O => EmptyString
  | S k => lowerhex (Z.land (Z.shiftr r (4 * Z.of_nat k)) 0xF) ++ hexDigits k r
  end.

Definition quoteChar : Z := 34.
Definition backslash : Z := 92.

(** [strconv.appendEscapedRune] with the double quote as [quote] and with
    [ASCIIonly = false], [graphicOnly = false]. *)
Definition appendEscapedRune {U : UnicodeTables} (r : Z) : string :=
  if (r =? quoteChar) || (r =? backslash) then str1 backslash ++ str1 r
  else if IsPrint r then AppendRune r
  else if r =? 7 then "\a"
  else if r =? 8 then "\b"
  else if r =? 12 then "\f"
  else if r =? 10 then "\n"
  else if r =? 13 then "\r"
  else if r =? 9 then "\t"
  else if r =? 11 then "\v"
  else if (r <? 32) || (r =? 0x7F) then
    "\x" ++ lowerhex (Z.shiftr (r mod 256) 4) ++ lowerhex (Z.land (r mod 256) 0xF)
  else
    let r := if ValidRune r then r else 0xFFFD in
    if r <? 0x10000 then "\u" ++ hexDigits 4 r
    else "\U" ++ hexDigits 8 r.

(** The loop of [strconv.appendQuotedWith]. *)
Fixpoint quoteLoop {U : UnicodeTables} (skip : nat) (s : string) : string :=
  match s with
  | EmptyString => EmptyString
  | String c rest =>
    match skip with
    | S k => quoteLoop k rest
    | O =>
      let '(r, width) := DecodeRuneInString s in
      (if Nat.eqb width 1 && (r =? RuneError) then
         "\x" ++ lowerhex (Z.shiftr (byte_val c) 4)
              ++ lowerhex (Z.land (byte_val c) 0xF)
       else appendEscapedRune r)
      ++ quoteLoop (width - 1)%nat rest
    end
  end.

(** [strconv.Quote], which is what the verb [%q] applies to a string. *)
Definition Quote {U : UnicodeTables} (s : string) : string :=
  str1 quoteChar ++ quoteLoop 0 s ++ str1 quoteChar.

(** [writePadding] of package [fmt], with the space as padding byte. *)
Definition writePadding (n : Z) : string :=
  string_of_list_ascii (repeat " "%char (Z.to_nat n)).

(** [padString] of package [fmt]: [wid] is the width of the verb, [minus]
    its [-] flag. *)
Definition padString (wid : Z) (minus : bool) (s : string) : string :=
  if wid =? 0 then s
  else
    let width := wid - RuneCountInString s in
    if minus then s ++ writePadding width else writePadding width ++ s.

End Fmt.

(** ** [path/filepath] on Unix: [Clean], [Base], [Dir], [Join] *)

Module Filepath.

Definition Separator : ascii := "/"%char.

Definition IsPathSeparator (c : ascii) : bool := Ascii.eqb c Separator.

(** [path[i]], for an index inside the string. *)
Definition at_index (path : string) (i : nat) : ascii :=
  match String.get i path with
  | Some c => c
  | None => Ascii.zero
  end.

(** The path elements: the pieces between separators, empty ones
    included; [/a//b] has four of them, the first and the third empty. *)
Fixpoint elements (path : string) : list string :=
  match path with
  | EmptyString => [EmptyString]
  | String c rest =>
    if IsPathSeparator c then EmptyString :: elements rest
    else match elements rest with
         | e :: es => String c e :: es
         | [] => [String c EmptyString]
         end
  end.

(** One element processed by [Clean].  [out] holds the elements kept so
    far, the last one first.  An empty element and [.] are dropped; [..]
    removes the element before it when there is one to remove, is dropped
    at the root, and is kept at the front of a relative path. *)
Definition cleanStep (rooted : bool) (out : list string) (e : string)
  : list string :=
  if String.eqb e "" then out
  else if String.eqb e "." then out
  else if String.eqb e ".." then
    match out with
    | top :: below =>
      if String.eqb top ".." then (if rooted then out else e :: out)
      else below
    | [] => if rooted then out else [e]
    end
  else e :: out.

Definition rooted (path : string) : bool :=
  match path with
  | String c _ => IsPathSeparator c
  | EmptyString => false
  end.

Definition kept (path : string) : list string :=
  fold_left (cleanStep (rooted path)) (elements path) [].

(** The kept elements written out: behind the separator of a rooted path,
    joined by separators, and [.] when nothing is left. *)
Definition render (rooted : bool) (out : list string) : string :=
  let s := (if rooted then "/" else "") ++ String.concat "/" (rev out) in
  if String.eqb s "" then "." else s.

(** [filepath.Clean]: the shortest path equivalent to [path] by lexical
    processing alone, following the four rules of its documentation. *)
Definition Clean (path : string) : string :=
  if String.eqb path "" then "."
  else render (rooted path) (kept path).

Fixpoint hasSeparator (s : string) : bool :=
  match s with
  | EmptyString => false
  | String c rest => IsPathSeparator c || hasSeparator rest
  end.

(** An element that [Clean] keeps: not empty, not [.], without separator. *)
Definition keptElement (e : string) : bool :=
  negb (String.eqb e "") && negb (String.eqb e ".") && negb (hasSeparator e).

(** The shape of what [Clean] keeps, the last element first: [..] stands
    only below other [..], and never in a rooted path. *)
Fixpoint stackOK (rooted : bool) (out : list string) : bool :=
  match out with
  | [] => true
  | e :: below =>
    keptElement e
    && (if String.eqb e ".." then
          negb rooted
          && match below with
             | [] => true
             | t :: _ => String.eqb t ".."
             end
        else true)
    && stackOK rooted below
  end.

(** The loop [for len(path) > 0 && IsPathSeparator(path[len(path)-1])] of
    [Base]: the length left once the trailing separators are cut. *)
Fixpoint trimmedLen (path : string) (n : nat) : nat :=
  match n with
  | O => O
  | S i => if IsPathSeparator (at_index path i) then trimmedLen path i else n
  end.

(** The loop [for i >= 0 && !IsPathSeparator(path[i]) { i-- }] shared by
    [Base] and [Dir], started at [i = n - 1]; the result is [i + 1]. *)
Fixpoint afterLastSep (path : string) (n : nat) : nat :=
  match n with
  | O => O
  | S i => if IsPathSeparator (at_index path i) then n else afterLastSep path i
  end.

(** [filepath.Base] *)
Definition Base (path : string) : string :=
  if String.eqb path "" then "."
  else
    let path := String.substring 0 (trimmedLen path (String.length path)) path in
    let i1 := afterLastSep path (String.length path) in
    let path := String.substring i1 (String.length path - i1) path in
    if String.eqb path "" then "/" else path.

(** [filepath.Dir] *)
Definition Dir (path : string) : string :=
  let i1 := afterLastSep path (String.length path) in
  Clean (String.substring 0 i1 path).

(** [filepath.Join] of two elements: empty elements are ignored and the
    rest, joined by the separator, is cleaned. *)
Definition Join (dir name : string) : string :=
  if negb (String.eqb dir "") then Clean (dir ++ "/" ++ name)
  else if negb (String.eqb name "") then Clean name
  else "".

End Filepath.

(** ** The recursion marker *)

(** [func recursivePath(path string) (string, bool)] *)
Definition recursivePath (path : string) : string * bool :=
  if String.eqb (Filepath.Base path) "..." then (Filepath.Dir path, true)
  else (path, false).

(** ** Errors *)

Module Errors.

(** What the operating system reports for a failed [Lstat] or [ReadDir]:
    the fields [Op], [Path] and [Err] of an [*fs.PathError]. *)
Record oserror :=
  mkOsError { pe_Op : string; pe_Path : string; pe_Err : string }.

Definition oserror_eqb (a b : oserror) : bool :=
  String.eqb (pe_Op a) (pe_Op b) && String.eqb (pe_Path a) (pe_Path b)
  && String.eqb (pe_Err a) (pe_Err b).

Inductive error :=
| errorString (s : string)                (* [errors.New(s)] *)
| wrapError (msg : string) (err : error)  (* [fmt.Errorf] with a [%w] verb *)
| PathError (e : oserror).

Fixpoint error_eqb (a b : error) : bool :=
  match a, b with
  | errorString s, errorString t => String.eqb s t
  | wrapError m e, wrapError n f => String.eqb m n && error_eqb e f
  | PathError e, PathError f => oserror_eqb e f
  | _, _ => false
  end.

(** The method [Error()]. *)
Definition Error (e : error) : string :=
  match e with
  | errorString s => s
  | wrapError msg _ => msg
  | PathError e => pe_Op e ++ " " ++ pe_Path e ++ ": " ++ pe_Err e
  end.

(** [errors.Is] *)
Fixpoint Is (e target : error) : bool :=
  error_eqb e target
  || match e with
     | wrapError _ inner => Is inner target
     | _ => false
     end.

Definition ErrNotDirectory : error := errorString "fsnotify: not a directory".

(** [fs.SkipDir] and [fs.SkipAll] *)
Definition SkipDir : error := errorString "skip this directory".
Definition SkipAll : error := errorString "skip everything and stop the walk".

(** [fmt.Errorf("%q: %w", path, err)] *)
Definition Errorf_q_w {U : Fmt.UnicodeTables} (path : string) (err : error)
  : error :=
  wrapError (Fmt.Quote path ++ ": " ++ Error err) err.

End Errors.

(** ** The file system and [filepath.WalkDir] *)

Module Walk.

Import Errors.

(** What lies at a path, as [Lstat] sees it: links are not followed.  A
    directory carries what [os.ReadDir] returns for it: its entries, sorted
    by name, and possibly an error. *)
#[local] Set Warnings "-register-all".

Inductive node :=
| File
| Symlink (target : string)
| Dir (entries : list (string * node)) (readErr : option oserror).

(** The file system as [os.Lstat] answers for a path. *)
Definition FS := string -> oserror + node.

(** [fs.DirEntry]; the callback of [findDirs] asks it only [IsDir]. *)
Record DirEntry := mkDirEntry { IsDir : bool }.

Definition entryOf (n : node) : DirEntry :=
  match n with
  | Dir _ _ => mkDirEntry true
  | _ => mkDirEntry false
  end.

Section WalkDir.

(** The variables a callback closes over. *)
Variable St : Type.

(** [fs.WalkDirFunc], with the captured variables passed through. *)
Definition WalkDirFunc :=
  string -> option DirEntry -> option error -> St -> option error * St.

Variable fn : WalkDirFunc.

(** [filepath.walkDir]; [rangeDirs] below names its loop over the
    entries. *)
Fixpoint walkDir (path : string) (d : node) (st : St) : option error * St :=
  match fn path (Some (entryOf d)) None st with
  | (Some err, st) =>
    if error_eqb err SkipDir && IsDir (entryOf d) then (None, st)
    else (Some err, st)
  | (None, st) =>
    match d with
    | Dir dirs readErr =>
      let range :=
        fix range (dirs : list (string * node)) (st : St)
          : option error * St :=
          match dirs with
          | [] => (None, st)
          | (name, d1) :: dirs =>
            match walkDir (Filepath.Join path name) d1 st with
            | (Some err, st) =>
              if error_eqb err SkipDir then (None, st) else (Some err, st)
            | (None, st) => range dirs st
            end
          end in
      match readErr with
      | Some e =>
        match fn path (Some (entryOf d)) (Some (PathError e)) st with
        | (Some err, st) =>
          if error_eqb err SkipDir && IsDir (entryOf d) then (None, st)
          else (Some err, st)
        | (None, st) => range dirs st
        end
      | None => range dirs st
      end
    | _ => (None, st)
    end
  end.

(** The loop [for _, d1 := range dirs] of [walkDir]. *)
Definition rangeDirs (path : string)
  : list (string * node) -> St -> option error * St :=
  fix range (dirs : list (string * node)) (st : St) : option error * St :=
    match dirs with
    | [] => (None, st)
    | (name, d1) :: dirs =>
      match walkDir (Filepath.Join path name) d1 st with
      | (Some err, st) =>
        if error_eqb err SkipDir then (None, st) else (Some err, st)
      | (None, st) => range dirs st
      end
    end.

(** [filepath.WalkDir] *)
Definition WalkDir (fs : FS) (root : string) (st : St) : option error * St :=
  let '(err, st) :=
    match fs root with
    | inl e => fn root None (Some (PathError e)) st
    | inr info => walkDir root info st
    end in
  match err with
  | Some e =>
    if error_eqb e SkipDir || error_eqb e SkipAll then (None, st)
    else (Some e, st)
  | None => (None, st)
  end.

End WalkDir.

Section FindDirs.

Context {U : Fmt.UnicodeTables}.

(** The function literal passed to [WalkDir]; [path] and [dirs] are the
    variables of [findDirs] it captures. *)
Definition visit (path : string) : WalkDirFunc (list string) :=
  fun root d err dirs =>
    match err with
    | Some e => (Some e, dirs)
    | None =>
      let isDir := match d with Some d => IsDir d | None => false end in
      if String.eqb root path && negb isDir then
        (Some (Errorf_q_w path ErrNotDirectory), dirs)
      else if isDir then (None, (dirs ++ [root])%list)
      else (None, dirs)
    end.

(** [func findDirs(path string) ([]string, error)]; the [nil] slice is the
    empty list. *)
Definition findDirs (fs : FS) (path : string) : list string * option error :=
  let dirs := [] in
  let '(err, dirs) := WalkDir (list string) (visit path) fs path dirs in
  match err with
  | Some e => ([], Some e)
  | None => (dirs, None)
  end.

End FindDirs.

End Walk.

(** ** The textual form of an event *)

Module EventText.

Import Event Fmt.

(** [fmt.Sprintf("%-13s %q", a, b)]: the first verb has the [-] flag and
    width 13, then a space, then the quoted second operand. *)
Definition Sprintf_s13_q {U : UnicodeTables} (a b : string) : string :=
  padString 13 true a ++ " " ++ Quote b.

(** [func (e Event) String() string] *)
Definition Event_String {U : UnicodeTables} (e : Event) : string :=
  Sprintf_s13_q (Op_String (EOp e)) (Name e).

End EventText.

(** ** What the specification says, in its own words *)

Module Spec.

Import Event Fmt EventText Errors Walk.

(** The rendering order, with the tag of each flag. *)
Definition ordered : list (Op * string) :=
  [(Create, "CREATE"); (Remove, "REMOVE"); (Write, "WRITE");
   (Rename, "RENAME"); (Chmod, "CHMOD")].

(** The tags of the flags that [o] has, in rendering order, joined by the
    pipe; the sentinel when it has none. *)
Definition rendered (o : Op) : string :=
  match map snd (filter (fun f => Has o (fst f)) ordered) with
  | [] => "[no events]"
  | tags => String.concat "|" tags
  end.

Definition spaces (n : nat) : string :=
  string_of_list_ascii (repeat " "%char n).

(** The reading of "a left-padded, fixed-width operation label followed by
    the quoted path": for one width [w], every event is rendered as its
    label preceded by the spaces that fill the column, then the path. *)
Definition left_padded_fixed_width {U : UnicodeTables} (w : nat) : Prop :=
  forall e : Event, exists pad sep : nat,
    (pad + String.length (Op_String (EOp e)))%nat = w /\
    Event_String e
    = spaces pad ++ Op_String (EOp e) ++ spaces sep ++ Quote (Name e).

(** *** A reader for the textual form, as a test harness would write it *)

Definition dquote : ascii := ascii_of_nat 34.
Definition bslash : ascii := ascii_of_nat 92.

(** The text before the first double quote and the text after it. *)
Fixpoint splitAtQuote (s : string) : option (string * string) :=
  match s with
  | EmptyString => None
  | String c rest =>
    if Ascii.eqb c dquote then Some (EmptyString, rest)
    else match splitAtQuote rest with
         | Some (a, b) => Some (String c a, b)
         | None => None
         end
  end.

(** Trailing spaces removed. *)
Fixpoint trimRight (s : string) : string :=
  match s with
  | EmptyString => EmptyString
  | String c rest =>
    match trimRight rest with
    | EmptyString => if Ascii.eqb c " " then EmptyString
                     else String c EmptyString
    | rest' => String c rest'
    end
  end.

(** The pieces of a label between pipes. *)
Fixpoint splitPipe (s : string) : list string :=
  match s with
  | EmptyString => [EmptyString]
  | String c rest =>
    if Ascii.eqb c "|" then EmptyString :: splitPipe rest
    else match splitPipe rest with
         | t :: ts => String c t :: ts
         | [] => [String c EmptyString]
         end
  end.

Definition flagOfTag (tag : string) : option Op :=
  match find (fun f => String.eqb (snd f) tag) ordered with
  | Some f => Some (fst f)
  | None => None
  end.

Fixpoint orTags (tags : list string) : option Op :=
  match tags with
  | [] => Some 0%Z
  | t :: ts =>
    match flagOfTag t, orTags ts with
    | Some f, Some o => Some (Z.lor f o)
    | _, _ => None
    end
  end.

Definition parseLabel (label : string) : option Op :=
  if String.eqb label "[no events]" then Some 0%Z
  else orTags (splitPipe label).

(** The quoted path read back: up to the closing quote, which must end the
    text; a backslash stands before a quote or a backslash, other escapes
    are not read. *)
Fixpoint unquote (s : string) : option string :=
  match s with
  | EmptyString => None
  | String c rest =>
    if Ascii.eqb c dquote then
      match rest with EmptyString => Some EmptyString | _ => None end
    else if Ascii.eqb c bslash then
      match rest with
      | String c' rest' =>
        if Ascii.eqb c' dquote || Ascii.eqb c' bslash then
          match unquote rest' with
          | Some t => Some (String c' t)
          | None => None
          end
        else None
      | EmptyString => None
      end
    else
      match unquote rest with
      | Some t => Some (String c t)
      | None => None
      end
  end.

Definition parseEvent (s : string) : option Event :=
  match splitAtQuote s with
  | Some (field, quoted) =>
    match parseLabel (trimRight field), unquote quoted with
    | Some o, Some name => Some (mkEvent name o)
    | _, _ => None
    end
  | None => None
  end.

(** A byte that [%q] leaves readable: printable ASCII. *)
Definition plainByte (c : ascii) : bool :=
  (32 <=? nat_of_ascii c)%nat && (nat_of_ascii c <=? 126)%nat.

Fixpoint plain (s : string) : bool :=
  match s with
  | EmptyString => true
  | String c rest => plainByte c && plain rest
  end.

(** What [%q] writes for one printable ASCII byte. *)
Definition escaped (c : ascii) : string :=
  if Ascii.eqb c dquote || Ascii.eqb c bslash
  then String bslash (String c "") else String c "".

Fixpoint noQuote (s : string) : bool :=
  match s with
  | EmptyString => true
  | String c rest => negb (Ascii.eqb c dquote) && noQuote rest
  end.

(** The column of the label as [Event.String] writes it, read back. *)
Definition labelReadsBack (o : Op) : bool :=
  let field := padString 13 true (Op_String o) ++ " " in
  noQuote field
  && match parseLabel (trimRight field) with
     | Some o' => Z.eqb o' o
     | None => false
     end.

(** The operation that holds the flags of a list. *)
Definition opOf (flags : list Op) : Op := fold_right Z.lor 0%Z flags.

(** The mask of the five flags. *)
Definition known : Op := opOf declared.

(** The five tests of [String], in the order in which it makes them. *)
Definition tests (o : Op) : list bool :=
  [Has o Create; Has o Remove; Has o Write; Has o Rename; Has o Chmod].

(** A path that [%q] writes as it is: printable ASCII without double quote
    and without backslash. *)
Fixpoint verbatim (s : string) : bool :=
  match s with
  | EmptyString => true
  | String c rest =>
    plainByte c && negb (Ascii.eqb c dquote) && negb (Ascii.eqb c bslash)
    && verbatim rest
  end.

(** *** The directory tree *)

Definition isDir (d : node) : bool := IsDir (entryOf d).

(** Every entry of the tree under [d] with its path, in depth-first
    pre-order: a directory before its entries, the entries in the order of
    the listing, links not followed. *)
Fixpoint preorder (path : string) (d : node) : list (string * node) :=
  (path, d)
  :: match d with
     | Dir dirs _ =>
       flat_map (fun e => preorder (Filepath.Join path (fst e)) (snd e)) dirs
     | _ => []
     end.

(** The paths of the directories among them. *)
Definition dirPaths (l : list (string * node)) : list string :=
  map fst (filter (fun e => isDir (snd e)) l).

Definition directories (path : string) (d : node) : list string :=
  dirPaths (preorder path d).

(** A name a directory listing can hold: not empty, neither [.] nor [..],
    and without separator. *)
Definition validName (name : string) : bool :=
  Filepath.keptElement name && negb (String.eqb name "..").

Fixpoint validTree (d : node) : bool :=
  match d with
  | Dir dirs _ => forallb (fun e => validName (fst e) && validTree (snd e)) dirs
  | _ => true
  end.

(** No name twice in a listing. *)
Fixpoint distinct (l : list string) : bool :=
  match l with
  | [] => true
  | x :: rest => negb (existsb (String.eqb x) rest) && distinct rest
  end.

Fixpoint distinctNames (d : node) : bool :=
  match d with
  | Dir dirs _ =>
    distinct (map fst dirs) && forallb (fun e => distinctNames (snd e)) dirs
  | _ => true
  end.

(** Every path of [l] comes after its parent: it is a path that stands
    before it, in [seen] or in [l], joined with one name of a listing. *)
Fixpoint parentsFirst (seen l : list string) : Prop :=
  match l with
  | [] => True
  | p :: rest =>
    (exists q name,
        In q seen /\ validName name = true /\ p = Filepath.Join q name)
    /\ parentsFirst (p :: seen) rest
  end.

(** The error of the first directory, in pre-order, that cannot be read. *)
Definition readErrOf (d : node) : option oserror :=
  match d with
  | Dir _ readErr => readErr
  | _ => None
  end.

Fixpoint firstSome {A B : Type} (f : A -> option B) (l : list A) : option B :=
  match l with
  | [] => None
  | a :: rest => match f a with Some b => Some b | None => firstSome f rest end
  end.

Definition firstReadErr (path : string) (d : node) : option oserror :=
  firstSome (fun e => readErrOf (snd e)) (preorder path d).

(** What the callback of [findDirs] makes of the entries it is shown, one
    after the other: the directories collected so far, up to the first
    entry that stops the walk. *)
Fixpoint scan {U : UnicodeTables} (root : string) (l : list (string * node))
  (dirs : list string) : option error * list string :=
  match l with
  | [] => (None, dirs)
  | (p, d) :: rest =>
    if String.eqb p root && negb (isDir d) then
      (Some (Errorf_q_w root ErrNotDirectory), dirs)
    else if isDir d then
      match readErrOf d with
      | Some e => (Some (PathError e), (dirs ++ [p])%list)
      | None => scan root rest (dirs ++ [p])%list
      end
    else scan root rest dirs
  end.

(** The depth of a path: the number of elements that [Clean] keeps. *)
Definition depth (path : string) : nat := List.length (Filepath.kept path).

End Spec.

(** ** Concrete inputs *)

Module Examples.

Import Event Fmt Errors Walk.

(** Tables that declare no rune above Latin-1 printable; they are not
    consulted on ASCII input. *)
Definition noTables : UnicodeTables := {| isPrintTable := fun _ => false |}.

(** [root/{x.txt, sub/{y.txt}, link -> sub}], listed by name. *)
Definition tree : node :=
  Dir [("link", Symlink "sub");
       ("sub", Dir [("y.txt", File)] None);
       ("x.txt", File)] None.

Definition enoent (path : string) : oserror :=
  mkOsError "lstat" path "no such file or directory".

Definition eacces (path : string) : oserror :=
  mkOsError "open" path "permission denied".

(** A file system that holds [tree] at [root], a regular file at
    [root.txt], and nothing else. *)
Definition fs : FS :=
  fun path =>
    if String.eqb path "root" then inr tree
    else if String.eqb path "root.txt" then inr File
    else inl (enoent path).

(** The same tree, with [sub] unreadable. *)
Definition lockedTree : node :=
  Dir [("link", Symlink "sub");
       ("sub", Dir [] (Some (eacces "root/sub")));
       ("x.txt", File);
       ("z", Dir [] None)] None.

Definition lockedFs : FS :=
  fun path => if String.eqb path "root" then inr lockedTree
              else inl (enoent path).

(** A directory [flat] that holds a file and a link, and no directory. *)
Definition flatTree : node :=
  Dir [("a.txt", File); ("l", Symlink "a.txt")] None.

Definition flatFs : FS :=
  fun path => if String.eqb path "flat" then inr flatTree
              else inl (enoent path).

End Examples.

(** * Properties *)

(** ** The operation bit mask *)

Module EventFacts.

Import Event Spec.

Local Open Scope Z_scope.

Lemma Has_land (o h : Op) : Has o h = true <-> Z.land o h = h.
Proof. unfold Has. apply Z.eqb_eq. Qed.

(** C1: [o.Has(h)] holds exactly when [o & h == h], which is to say when
    every bit set in [h] is set in [o]; [h] may combine several flags.  As a
    function to [bool] the test is total and has no effect. *)
Theorem Has_iff_every_bit (o h : Op) :
  (Has o h = true <-> Z.land o h = h) /\
  (Has o h = true <->
   forall i : Z, Z.testbit h i = true -> Z.testbit o i = true).
Proof.
  split; [apply Has_land|].
  rewrite Has_land. split.
  - intros E i Hi. rewrite <- E, Z.land_spec in Hi.
    now apply andb_true_iff in Hi.
  - intros Hbits. apply Z.bits_inj'. intros i _.
    rewrite Z.land_spec.
    destruct (Z.testbit h i) eqn:Hi.
    + now rewrite (Hbits i Hi).
    + apply andb_false_r.
Qed.

Lemma declared_in_range : Forall in_range declared.
Proof. repeat constructor; unfold in_range; cbn; lia. Qed.

(** C7: the flags are the powers of two in the order of declaration:
    Create = 1, Write = 2, Remove = 4, Rename = 8, Chmod = 16; no two of
    them share a bit. *)
Theorem flags_are_powers_of_two :
  Create = 1 /\ Write = 2 /\ Remove = 4 /\ Rename = 8 /\ Chmod = 16 /\
  declared = map (fun k => 2 ^ Z.of_nat k) (seq 0 5) /\
  (forall i j : nat,
      (i < 5)%nat -> (j < 5)%nat -> i <> j ->
      Z.land (nth i declared 0) (nth j declared 0) = 0).
Proof.
  repeat split; try reflexivity.
  intros i j Hi Hj Hij.
  do 5 (destruct i as [|i]; [do 5 (destruct j as [|j]; [first [reflexivity | contradiction]|]); lia|]).
  lia.
Qed.

(** C10: the empty operation is contained in every value, itself
    included. *)
Theorem Has_zero (o : Op) : Has o 0 = true.
Proof. apply Has_land. apply Z.land_0_r. Qed.

(** C5: [o.String()] lists the tags of the flags [o] has in the order
    Create, Remove, Write, Rename, Chmod, joined by pipes and without a
    leading pipe, and is the sentinel when [o] has none of them; so is it for
    [Op(0)], and Create|Write gives CREATE|WRITE. *)
Theorem Op_String_rendered (o : Op) :
  Op_String o = rendered o /\
  Op_String 0 = "[no events]"%string /\
  Op_String (Z.lor Create Write) = "CREATE|WRITE"%string.
Proof.
  split; [|split; reflexivity].
  unfold Op_String, rendered, ordered.
  cbn [filter map fst snd].
  destruct (Has o Create), (Has o Remove), (Has o Write), (Has o Rename),
    (Has o Chmod); reflexivity.
Qed.

End EventFacts.

(** ** Strings *)

Module StringFacts.

Lemma append_assoc (a b c : string) : (a ++ b) ++ c = a ++ (b ++ c).
Proof. induction a as [|x a IH]; simpl; [reflexivity | now rewrite IH]. Qed.

Lemma append_nil_r (a : string) : a ++ "" = a.
Proof. induction a as [|x a IH]; simpl; [reflexivity | now rewrite IH]. Qed.

Lemma length_append (a b : string) :
  String.length (a ++ b) = String.length a + String.length b.
Proof. induction a as [|x a IH]; simpl; [reflexivity | now rewrite IH]. Qed.

Lemma append_eq_nil (a b : string) : a ++ b = "" -> a = "" /\ b = "".
Proof. destruct a; simpl; [auto | discriminate]. Qed.

Lemma get_append_r (a b : string) (k : nat) :
  String.get (String.length a + k) (a ++ b) = String.get k b.
Proof. induction a as [|x a IH]; simpl; [reflexivity | exact IH]. Qed.

Lemma substring_all (s : string) : String.substring 0 (String.length s) s = s.
Proof. induction s as [|x s IH]; simpl; [reflexivity | now rewrite IH]. Qed.

Lemma substring_append_l (a b : string) :
  String.substring 0 (String.length a) (a ++ b) = a.
Proof.
  induction a as [|x a IH]; simpl; [now destruct b | now rewrite IH].
Qed.

Lemma substring_append_r (a b : string) (n : nat) :
  String.substring (String.length a) n (a ++ b) = String.substring 0 n b.
Proof. induction a as [|x a IH]; simpl; [reflexivity | exact IH]. Qed.

End StringFacts.

(** ** The textual form of an event *)

Module EventTextFacts.

Import Event Fmt EventText Spec StringFacts.

Section WithTables.

Context {U : UnicodeTables}.

(** The label decides nothing beyond the five flags. *)
Ltac by_flags o :=
  unfold Op_String;
  destruct (Has o Create), (Has o Remove), (Has o Write), (Has o Rename),
    (Has o Chmod).

(** On a label the verb [%-13s] appends the spaces that fill the column. *)
Lemma padString_label (o : Op) :
  padString 13 true (Op_String o)
  = Op_String o ++ spaces (13 - String.length (Op_String o)).
Proof. by_flags o; reflexivity. Qed.

Lemma quoteLoop_cons (c : ascii) (rest : string) :
  quoteLoop 0 (String c rest)
  = let '(r, width) := DecodeRuneInString (String c rest) in
    (if Nat.eqb width 1 && Z.eqb r RuneError then
       "\x" ++ lowerhex (Z.shiftr (byte_val c) 4)
            ++ lowerhex (Z.land (byte_val c) 0xF)
     else appendEscapedRune r)
    ++ quoteLoop (width - 1) rest.
Proof. reflexivity. Qed.

Lemma decode_plain (c : ascii) (rest : string) :
  plainByte c = true ->
  DecodeRuneInString (String c rest) = (byte_val c, 1%nat).
Proof.
  intros Hc.
  destruct c as [[] [] [] [] [] [] [] []];
    vm_compute in Hc; try discriminate Hc; reflexivity.
Qed.

Lemma escape_plain (c : ascii) :
  plainByte c = true ->
  Z.eqb (byte_val c) RuneError = false /\
  appendEscapedRune (byte_val c) = escaped c.
Proof.
  intros Hc.
  destruct c as [[] [] [] [] [] [] [] []];
    vm_compute in Hc; try discriminate Hc; split; reflexivity.
Qed.

Lemma quoteLoop_plain (c : ascii) (rest : string) :
  plainByte c = true ->
  quoteLoop 0 (String c rest) = escaped c ++ quoteLoop 0 rest.
Proof.
  intros Hc. rewrite quoteLoop_cons, (decode_plain c rest Hc).
  destruct (escape_plain c Hc) as [E1 E2].
  rewrite E1, E2. reflexivity.
Qed.

Lemma unquote_escaped (c : ascii) (tail : string) :
  plainByte c = true ->
  unquote (escaped c ++ tail)
  = match unquote tail with
    | Some t => Some (String c t)
    | None => None
    end.
Proof.
  intros Hc.
  destruct c as [[] [] [] [] [] [] [] []];
    vm_compute in Hc; try discriminate Hc; reflexivity.
Qed.

Lemma unquote_quoteLoop (name : string) :
  plain name = true ->
  unquote (quoteLoop 0 name ++ String dquote "") = Some name.
Proof.
  induction name as [|c name IH]; intros Hp.
  - reflexivity.
  - simpl in Hp. apply andb_true_iff in Hp. destruct Hp as [Hc Hp].
    rewrite (quoteLoop_plain c name Hc), append_assoc.
    rewrite (unquote_escaped c _ Hc), (IH Hp). reflexivity.
Qed.

Lemma splitAtQuote_app (field rest : string) :
  noQuote field = true ->
  splitAtQuote (field ++ String dquote rest) = Some (field, rest).
Proof.
  induction field as [|c field IH]; simpl; intros Hq.
  - reflexivity.
  - apply andb_true_iff in Hq. destruct Hq as [Hc Hq].
    apply negb_true_iff in Hc. rewrite Hc, (IH Hq). reflexivity.
Qed.

Lemma labels_read_back :
  forallb labelReadsBack (map Z.of_nat (seq 0 32)) = true.
Proof. vm_compute. reflexivity. Qed.

Lemma label_reads_back (o : Op) :
  (0 <= o < 32)%Z -> labelReadsBack o = true.
Proof.
  intros Ho.
  apply (proj1 (forallb_forall _ _) labels_read_back).
  apply in_map_iff. exists (Z.to_nat o). split; [lia|].
  apply in_seq. lia.
Qed.

Lemma Event_String_split (e : Event) :
  Event_String e
  = (padString 13 true (Op_String (EOp e)) ++ " ")
    ++ String dquote (quoteLoop 0 (Name e) ++ String dquote "").
Proof.
  unfold Event_String, Sprintf_s13_q, Quote.
  now rewrite append_assoc.
Qed.

(** C8, as the code has it: [e.String()] is the label of the operation,
    left-justified in a column of at least 13 bytes (spaces are appended to
    a shorter label, a longer one is written in full), one space, and the
    path as [%q] quotes it.  When the operation is a set of the five flags
    and the path is printable ASCII, reading the text back gives the
    event. *)
Theorem Event_String_format (e : Event) :
  Event_String e
  = Op_String (EOp e)
    ++ spaces (13 - String.length (Op_String (EOp e)))
    ++ " " ++ Quote (Name e)
  /\ ((0 <= EOp e < 32)%Z -> plain (Name e) = true ->
      parseEvent (Event_String e) = Some e).
Proof.
  split.
  - unfold Event_String, Sprintf_s13_q.
    now rewrite padString_label, append_assoc.
  - intros Ho Hp. unfold parseEvent.
    pose proof (label_reads_back (EOp e) Ho) as Hl.
    unfold labelReadsBack in Hl. apply andb_true_iff in Hl.
    destruct Hl as [Hq Hl].
    rewrite Event_String_split, (splitAtQuote_app _ _ Hq).
    destruct (parseLabel _) as [o'|]; [|discriminate Hl].
    apply Z.eqb_eq in Hl. subst o'.
    rewrite (unquote_quoteLoop (Name e) Hp).
    now destruct e.
Qed.

End WithTables.

Example Event_String_dir_file :
  Event_String (U := Examples.noTables)
    (mkEvent "dir/file" (Z.lor Create Write))
  = "CREATE|WRITE  " ++ String dquote ("dir/file" ++ String dquote "").
Proof. reflexivity. Qed.

(** The event of the specification, CREATE|WRITE on [dir/file], is read
    back from its text. *)
Lemma Event_String_format_witness :
  (0 <= 3 < 32)%Z /\ plain "dir/file" = true /\
  parseEvent
    (Event_String (U := Examples.noTables)
       (mkEvent "dir/file" (Z.lor Create Write)))
  = Some (mkEvent "dir/file" (Z.lor Create Write)).
Proof.
  split; [lia|]. split; [reflexivity|].
  apply (proj2 (Event_String_format (U := Examples.noTables)
                  (mkEvent "dir/file" (Z.lor Create Write)))).
  - simpl. lia.
  - reflexivity.
Defined.

(** C8, as the specification words it, fails: no width makes every event
    a label padded on its left up to that width and followed by the quoted
    path.  CREATE is written at the start of the text with the spaces after
    it, and CREATE|REMOVE|WRITE takes 19 bytes. *)
Lemma Event_String_not_left_padded_fixed_width :
  ~ (exists (U : UnicodeTables) (w : nat), left_padded_fixed_width w).
Proof.
  intros [U [w H]].
  destruct (H (mkEvent "f" Create)) as [pad [sep [Hw E]]].
  destruct (H (mkEvent "f" (Z.lor Create (Z.lor Remove Write))))
    as [pad' [sep' [Hw' _]]].
  change (String.length (Op_String (EOp (mkEvent "f" Create)))) with 6 in Hw.
  change (String.length
            (Op_String (EOp (mkEvent "f" (Z.lor Create (Z.lor Remove Write))))))
    with 19 in Hw'.
  destruct pad as [|pad]; [lia|].
  assert (L : exists rest,
             Event_String (mkEvent "f" Create) = String "C"%char rest)
    by (eexists; vm_compute; reflexivity).
  destruct L as [rest L]. rewrite L in E.
  simpl in E. discriminate E.
Qed.

End EventTextFacts.

(** ** The recursion marker *)

Module PathFacts.

Import Filepath.

Example recursivePath_marker : recursivePath "/a/b/..." = ("/a/b", true).
Proof. reflexivity. Qed.

Example recursivePath_plain : recursivePath "/a/b" = ("/a/b", false).
Proof. reflexivity. Qed.

Example recursivePath_bare : recursivePath "..." = (".", true).
Proof. reflexivity. Qed.

Lemma recursivePath_unmarked (path : string) :
  Base path <> "..." -> recursivePath path = (path, false).
Proof.
  intros Hb. unfold recursivePath.
  destruct (String.eqb_spec (Base path) "..."); [contradiction | reflexivity].
Qed.

Lemma recursivePath_marked (path : string) :
  Base path = "..." -> recursivePath path = (Dir path, true).
Proof. intros Hb. unfold recursivePath. now rewrite Hb. Qed.

Lemma at_index_append (a b : string) (k : nat) :
  at_index (a ++ b) (String.length a + k) = at_index b k.
Proof. unfold at_index. now rewrite StringFacts.get_append_r. Qed.

Lemma Base_marker_last (dir : string) : Base (dir ++ "/...") = "...".
Proof.
  unfold Base.
  destruct (String.eqb_spec (dir ++ "/...") "") as [E|_].
  { now destruct (StringFacts.append_eq_nil _ _ E). }
  assert (Hlen : String.length (dir ++ "/...") = S (String.length dir + 3)).
  { rewrite StringFacts.length_append. simpl. lia. }
  assert (Htrim : trimmedLen (dir ++ "/...") (String.length (dir ++ "/..."))
                  = String.length (dir ++ "/...")).
  { rewrite Hlen. cbn [trimmedLen]. now rewrite at_index_append. }
  rewrite Htrim, StringFacts.substring_all. cbv zeta.
  assert (Hlast : afterLastSep (dir ++ "/...") (String.length (dir ++ "/..."))
                  = String.length dir + 1).
  { rewrite Hlen. cbn [afterLastSep]. rewrite at_index_append.
    cbn [at_index String.get IsPathSeparator].
    replace (String.length dir + 3) with (S (String.length dir + 2)) by lia.
    cbn [afterLastSep]. rewrite at_index_append.
    replace (String.length dir + 2) with (S (String.length dir + 1)) by lia.
    cbn [afterLastSep]. rewrite at_index_append.
    replace (String.length dir + 1) with (S (String.length dir + 0)) by lia.
    cbn [afterLastSep]. rewrite at_index_append.
    reflexivity. }
  rewrite Hlast, Hlen.
  replace (S (String.length dir + 3) - (String.length dir + 1)) with 3 by lia.
  replace (String.length dir + 1) with (String.length (dir ++ "/")).
  2:{ rewrite StringFacts.length_append. reflexivity. }
  change (dir ++ "/...") with (dir ++ "/" ++ "...").
  rewrite <- StringFacts.append_assoc, StringFacts.substring_append_r.
  reflexivity.
Qed.

Lemma Dir_marker_last (dir : string) :
  Dir (dir ++ "/...") = Clean (dir ++ "/").
Proof.
  unfold Dir.
  assert (Hlen : String.length (dir ++ "/...") = S (String.length dir + 3)).
  { rewrite StringFacts.length_append. simpl. lia. }
  assert (Hlast : afterLastSep (dir ++ "/...") (String.length (dir ++ "/..."))
                  = String.length (dir ++ "/")).
  { rewrite Hlen, StringFacts.length_append. cbn [afterLastSep].
    rewrite at_index_append.
    cbn [at_index String.get IsPathSeparator].
    replace (String.length dir + 3) with (S (String.length dir + 2)) by lia.
    cbn [afterLastSep]. rewrite at_index_append.
    replace (String.length dir + 2) with (S (String.length dir + 1)) by lia.
    cbn [afterLastSep]. rewrite at_index_append.
    replace (String.length dir + 1) with (S (String.length dir + 0)) by lia.
    cbn [afterLastSep]. rewrite at_index_append.
    simpl. lia. }
  rewrite Hlast.
  change (dir ++ "/...") with (dir ++ "/" ++ "...").
  now rewrite <- StringFacts.append_assoc, StringFacts.substring_append_l.
Qed.

(** When the marker is the very end of the path it is stripped: the result
    is the cleaned path before it. *)
Lemma recursivePath_marker_last (dir : string) :
  recursivePath (dir ++ "/...") = (Clean (dir ++ "/"), true).
Proof.
  now rewrite (recursivePath_marked _ (Base_marker_last dir)), Dir_marker_last.
Qed.

(** C3: on a path whose marker is followed by a separator, [Base] still
    finds the marker, for it drops trailing separators, while [Dir] cuts
    only behind the last separator: the path is reported recursive and the
    marker is still in it. *)
Theorem recursivePath_trailing_separator :
  Base "/a/b/.../" = "..." /\
  Dir "/a/b/.../" = "/a/b/..." /\
  recursivePath "/a/b/.../" = ("/a/b/...", true).
Proof. repeat split. Qed.

End PathFacts.

(** ** The walk *)

Module WalkFacts.

Import Errors Walk Spec.

(** Induction over a tree, with the hypothesis for every entry of a
    directory. *)
Lemma node_ind' (P : node -> Prop) :
  P File ->
  (forall target, P (Symlink target)) ->
  (forall dirs readErr,
      Forall (fun e => P (snd e)) dirs -> P (Dir dirs readErr)) ->
  forall d, P d.
Proof.
  intros HF HS HD.
  fix IH 1. intros [|target|dirs readErr].
  - exact HF.
  - apply HS.
  - apply HD. induction dirs as [|[name d1] dirs IHdirs].
    + constructor.
    + constructor; [apply IH | exact IHdirs].
Qed.

Section WithTables.

Context {U : Fmt.UnicodeTables}.

Lemma walkDir_eq {St : Type} (fn : WalkDirFunc St) path d st :
  walkDir St fn path d st
  = match fn path (Some (entryOf d)) None st with
    | (Some err, st) =>
      if error_eqb err SkipDir && IsDir (entryOf d) then (None, st)
      else (Some err, st)
    | (None, st) =>
      match d with
      | Dir dirs readErr =>
        match readErr with
        | Some e =>
          match fn path (Some (entryOf d)) (Some (PathError e)) st with
          | (Some err, st) =>
            if error_eqb err SkipDir && IsDir (entryOf d) then (None, st)
            else (Some err, st)
          | (None, st) => rangeDirs St fn path dirs st
          end
        | None => rangeDirs St fn path dirs st
        end
      | _ => (None, st)
      end
    end.
Proof. destruct d; reflexivity. Qed.

(** The walk is stopped by nothing but the two errors of [scan], and
    neither is one of the sentinels that [WalkDir] swallows. *)
Lemma scan_error root l dirs err dirs' :
  scan root l dirs = (Some err, dirs') ->
  err = Errorf_q_w root ErrNotDirectory \/ exists e, err = PathError e.
Proof.
  revert dirs. induction l as [|[p d] l IH]; intros dirs; simpl.
  - discriminate.
  - destruct (String.eqb p root && negb (isDir d)).
    + intros E. injection E as <- _. now left.
    + destruct (isDir d); [|apply IH].
      destruct (readErrOf d) as [e|]; [|apply IH].
      intros E. injection E as <- _. right. now exists e.
Qed.

Lemma scan_error_not_skip root l dirs err dirs' :
  scan root l dirs = (Some err, dirs') ->
  error_eqb err SkipDir = false /\ error_eqb err SkipAll = false.
Proof.
  intros E. destruct (scan_error _ _ _ _ _ E) as [->|[e ->]]; split; reflexivity.
Qed.

Lemma scan_app root l1 l2 dirs :
  scan root (l1 ++ l2) dirs
  = match scan root l1 dirs with
    | (Some err, dirs') => (Some err, dirs')
    | (None, dirs') => scan root l2 dirs'
    end.
Proof.
  revert dirs. induction l1 as [|[p d] l1 IH]; intros dirs; simpl.
  - reflexivity.
  - destruct (String.eqb p root && negb (isDir d)); [reflexivity|].
    destruct (isDir d); [|apply IH].
    destruct (readErrOf d); [reflexivity | apply IH].
Qed.

(** [walkDir], run with the callback of [findDirs], is [scan] over the
    entries in pre-order. *)
Lemma walkDir_scan root d :
  forall path dirs,
    walkDir _ (visit root) path d dirs = scan root (preorder path d) dirs.
Proof.
  induction d as [|target|entries readErr IH] using node_ind';
    intros path dirs; rewrite walkDir_eq.
  - simpl. unfold isDir. simpl.
    destruct (String.eqb path root); reflexivity.
  - simpl. unfold isDir. simpl.
    destruct (String.eqb path root); reflexivity.
  - cbn [visit entryOf IsDir negb andb preorder scan isDir readErrOf].
    rewrite andb_false_r.
    assert (R : forall st,
               rangeDirs _ (visit root) path entries st
               = scan root
                   (flat_map
                      (fun e => preorder (Filepath.Join path (fst e)) (snd e))
                      entries) st).
    { induction IH as [|[name d1] entries Hd1 _ IHentries]; intros st.
      - reflexivity.
      - cbn [rangeDirs flat_map fst snd] in Hd1 |- *.
        rewrite scan_app, Hd1.
        destruct (scan root (preorder (Filepath.Join path name) d1) st)
          as [[err|] st'] eqn:E.
        + now rewrite (proj1 (scan_error_not_skip _ _ _ _ _ E)).
        + apply IHentries. }
    destruct readErr as [e|]; [reflexivity | apply R].
Qed.

(** [findDirs] in terms of [scan]. *)
Lemma findDirs_scan (fs : FS) (path : string) :
  findDirs fs path
  = match fs path with
    | inl e => ([], Some (PathError e))
    | inr d =>
      match scan path (preorder path d) [] with
      | (Some err, _) => ([], Some err)
      | (None, dirs) => (dirs, None)
      end
    end.
Proof.
  unfold findDirs, WalkDir.
  destruct (fs path) as [e|d].
  - reflexivity.
  - rewrite walkDir_scan.
    destruct (scan path (preorder path d) []) as [[err|] dirs] eqn:E.
    + destruct (scan_error_not_skip _ _ _ _ _ E) as [-> ->]. reflexivity.
    + reflexivity.
Qed.

End WithTables.

End WalkFacts.

(** ** [Clean] and [Join] *)

Module CleanFacts.

Import Filepath Spec StringFacts.

Lemma elements_nonempty (s : string) : elements s <> [].
Proof.
  destruct s as [|c s]; simpl; [discriminate|].
  destruct (IsPathSeparator c); [discriminate|].
  destruct (elements s); discriminate.
Qed.

Lemma elements_app_sep (a b : string) :
  elements (a ++ String Separator b) = (elements a ++ elements b)%list.
Proof.
  induction a as [|c a IH]; simpl.
  - reflexivity.
  - rewrite IH. destruct (IsPathSeparator c); [reflexivity|].
    destruct (elements a) as [|e es] eqn:E; [|reflexivity].
    now destruct (elements_nonempty a).
Qed.

Lemma elements_no_separator (s : string) :
  hasSeparator s = false -> elements s = [s].
Proof.
  induction s as [|c s IH]; simpl; intros H.
  - reflexivity.
  - apply orb_false_iff in H. destruct H as [Hc Hs].
    now rewrite Hc, (IH Hs).
Qed.

Lemma elements_have_no_separator (s : string) :
  Forall (fun e => hasSeparator e = false) (elements s).
Proof.
  induction s as [|c s IH]; simpl.
  - repeat constructor.
  - destruct (IsPathSeparator c) eqn:Hc.
    + constructor; [reflexivity | exact IH].
    + destruct (elements s) as [|e es].
      * repeat constructor. simpl. now rewrite Hc.
      * inversion IH as [|? ? He Hes]; subst.
        constructor; [|exact Hes]. simpl. now rewrite Hc, He.
Qed.

Lemma elements_concat (l : list string) :
  l <> [] ->
  Forall (fun e => hasSeparator e = false) l ->
  elements (String.concat "/" l) = l.
Proof.
  induction l as [|x l IH]; intros Hne Hl; [contradiction|].
  inversion Hl as [|? ? Hx Hl']; subst.
  destruct l as [|y l].
  - simpl. now apply elements_no_separator.
  - change (String.concat "/" (x :: y :: l))
      with (x ++ String Separator (String.concat "/" (y :: l))).
    rewrite elements_app_sep, (elements_no_separator x Hx), IH;
      [reflexivity | discriminate | exact Hl'].
Qed.

Lemma keptElement_spec (e : string) :
  keptElement e = true ->
  String.eqb e "" = false /\ String.eqb e "." = false
  /\ hasSeparator e = false.
Proof.
  unfold keptElement. intros H.
  apply andb_true_iff in H. destruct H as [H H3].
  apply andb_true_iff in H. destruct H as [H1 H2].
  now rewrite negb_true_iff in H1, H2, H3.
Qed.

Lemma stackOK_cons (r : bool) (e : string) (out : list string) :
  stackOK r (e :: out) = true ->
  keptElement e = true /\ stackOK r out = true /\
  (String.eqb e ".." = true ->
   r = false /\ match out with
                | [] => True
                | t :: _ => String.eqb t ".." = true
                end).
Proof.
  simpl. intros H.
  apply andb_true_iff in H. destruct H as [H H3].
  apply andb_true_iff in H. destruct H as [H1 H2].
  repeat split; try assumption.
  - rewrite H in H2. apply andb_true_iff in H2.
    now destruct r.
  - rewrite H in H2. apply andb_true_iff in H2.
    destruct H2 as [_ H2]. now destruct out.
Qed.

Lemma cleanStep_ok (r : bool) (out : list string) (e : string) :
  stackOK r out = true -> hasSeparator e = false ->
  stackOK r (cleanStep r out e) = true.
Proof.
  intros Hout He. unfold cleanStep.
  destruct (String.eqb e "") eqn:E0; [exact Hout|].
  destruct (String.eqb e ".") eqn:E1; [exact Hout|].
  destruct (String.eqb e "..") eqn:E2.
  - apply String.eqb_eq in E2. subst e.
    destruct out as [|top below].
    + now destruct r.
    + destruct (String.eqb top "..") eqn:Et.
      * destruct r; [exact Hout|].
        change (stackOK false (".." :: top :: below))
          with (true && (true && String.eqb top "..")
                && stackOK false (top :: below)).
        now rewrite Et, Hout.
      * now destruct (stackOK_cons _ _ _ Hout) as [_ [H _]].
  - simpl. unfold keptElement. now rewrite E0, E1, E2, He, Hout.
Qed.

Lemma fold_cleanStep_ok (r : bool) (l : list string) :
  Forall (fun e => hasSeparator e = false) l ->
  forall out, stackOK r out = true ->
              stackOK r (fold_left (cleanStep r) l out) = true.
Proof.
  induction 1 as [|e l He _ IH]; intros out Hout; simpl.
  - exact Hout.
  - apply IH. now apply cleanStep_ok.
Qed.

Lemma kept_ok (s : string) : stackOK (rooted s) (kept s) = true.
Proof.
  apply fold_cleanStep_ok; [apply elements_have_no_separator | reflexivity].
Qed.

Lemma cleanStep_keeps (r : bool) (e : string) (out : list string) :
  stackOK r (e :: out) = true -> cleanStep r out e = e :: out.
Proof.
  intros H. destruct (stackOK_cons _ _ _ H) as [Hk [_ Hdd]].
  destruct (keptElement_spec _ Hk) as [E0 [E1 _]].
  unfold cleanStep. rewrite E0, E1.
  destruct (String.eqb e "..") eqn:E2; [|reflexivity].
  destruct (Hdd eq_refl) as [-> Htop].
  destruct out as [|top below]; [reflexivity|].
  now rewrite Htop.
Qed.

Lemma fold_rev_stack (r : bool) (out : list string) :
  stackOK r out = true -> fold_left (cleanStep r) (rev out) [] = out.
Proof.
  induction out as [|e out IH]; intros H; simpl.
  - reflexivity.
  - destruct (stackOK_cons _ _ _ H) as [_ [Hout _]].
    rewrite fold_left_app, (IH Hout). simpl.
    now apply cleanStep_keeps.
Qed.

Lemma stackOK_all_kept (r : bool) (out : list string) :
  stackOK r out = true -> Forall (fun e => keptElement e = true) out.
Proof.
  induction out as [|e out IH]; intros H; constructor;
    destruct (stackOK_cons _ _ _ H) as [? [? _]]; auto.
Qed.

Lemma rooted_concat (x : string) (l : list string) :
  keptElement x = true -> rooted (String.concat "/" (x :: l)) = false.
Proof.
  intros Hx. destruct (keptElement_spec _ Hx) as [E0 [_ Hs]].
  destruct x as [|c x]; [discriminate E0|].
  simpl in Hs. apply orb_false_iff in Hs. destruct Hs as [Hc _].
  destruct l; simpl; exact Hc.
Qed.

Lemma concat_not_empty (x : string) (l : list string) :
  keptElement x = true -> String.eqb (String.concat "/" (x :: l)) "" = false.
Proof.
  intros Hx. destruct (keptElement_spec _ Hx) as [E0 _].
  destruct x as [|c x]; [discriminate E0|].
  destruct l; reflexivity.
Qed.

(** What [Clean] writes is read back as the elements it kept. *)
Lemma kept_render (r : bool) (out : list string) :
  stackOK r out = true -> kept (render r out) = out.
Proof.
  intros H.
  pose proof (stackOK_all_kept _ _ H) as Hall.
  apply Forall_rev in Hall.
  pose proof (fold_rev_stack _ _ H) as Hfold.
  unfold render.
  destruct (rev out) as [|x l] eqn:El.
  - assert (out = []) as ->.
    { rewrite <- (rev_involutive out), El. reflexivity. }
    now destruct r.
  - pose proof (Forall_inv Hall) as Hx. simpl in Hx.
    assert (Hsep : Forall (fun e => hasSeparator e = false) (x :: l)).
    { eapply Forall_impl; [|exact Hall].
      intros e He. now destruct (keptElement_spec _ He) as [_ [_ ?]]. }
    destruct r.
    + change ("/" ++ String.concat "/" (x :: l))
        with (String Separator (String.concat "/" (x :: l))).
      cbn [String.eqb]. unfold kept. cbn [rooted elements].
      change (IsPathSeparator Separator) with true. cbn iota.
      rewrite (elements_concat (x :: l)); [|discriminate | exact Hsep].
      exact Hfold.
    + change ("" ++ String.concat "/" (x :: l))
        with (String.concat "/" (x :: l)).
      rewrite (concat_not_empty x l Hx). unfold kept.
      rewrite (rooted_concat x l Hx).
      rewrite (elements_concat (x :: l)); [|discriminate | exact Hsep].
      exact Hfold.
Qed.

Lemma kept_Clean (s : string) : kept (Clean s) = kept s.
Proof.
  unfold Clean. destruct (String.eqb_spec s "") as [->|_].
  - reflexivity.
  - apply kept_render, kept_ok.
Qed.

Lemma validName_spec (name : string) :
  validName name = true ->
  keptElement name = true /\ String.eqb name ".." = false.
Proof.
  unfold validName. intros H. apply andb_true_iff in H.
  destruct H as [H1 H2]. now rewrite negb_true_iff in H2.
Qed.

Lemma cleanStep_name (r : bool) (out : list string) (name : string) :
  validName name = true -> cleanStep r out name = name :: out.
Proof.
  intros H. destruct (validName_spec _ H) as [Hk E2].
  destruct (keptElement_spec _ Hk) as [E0 [E1 _]].
  unfold cleanStep. now rewrite E0, E1, E2.
Qed.

Lemma rooted_app (a b : string) : a <> "" -> rooted (a ++ b) = rooted a.
Proof. destruct a; [contradiction | reflexivity]. Qed.

(** Joining a name to a path adds it to what [Clean] keeps. *)
Lemma kept_Join (path name : string) :
  validName name = true ->
  kept (Join path name) = name :: kept path.
Proof.
  intros H. destruct (validName_spec _ H) as [Hk _].
  destruct (keptElement_spec _ Hk) as [E0 [_ Hs]].
  unfold Join. destruct (String.eqb_spec path "") as [->|Hp]; simpl negb;
    cbv iota.
  - rewrite E0. simpl negb. cbv iota. rewrite kept_Clean. unfold kept.
    rewrite (elements_no_separator _ Hs). simpl fold_left.
    now apply cleanStep_name.
  - rewrite kept_Clean. unfold kept.
    change (path ++ "/" ++ name) with (path ++ String Separator name).
    rewrite (rooted_app _ _ Hp), elements_app_sep,
      (elements_no_separator _ Hs), fold_left_app.
    simpl fold_left. now apply cleanStep_name.
Qed.

Lemma depth_Join (path name : string) :
  validName name = true -> depth (Join path name) = S (depth path).
Proof. intros H. unfold depth. now rewrite (kept_Join _ _ H). Qed.

End CleanFacts.

(** ** [findDirs] *)

Module FindDirsFacts.

Import Errors Walk Spec WalkFacts CleanFacts.

Lemma validTree_entry dirs readErr e :
  validTree (Dir dirs readErr) = true -> In e dirs ->
  validName (fst e) = true /\ validTree (snd e) = true.
Proof.
  simpl. intros H Hin.
  apply (proj1 (forallb_forall _ _) H) in Hin.
  now apply andb_true_iff in Hin.
Qed.

(** Below a directory every path is deeper than the directory's. *)
Lemma preorder_depth (d : node) :
  validTree d = true ->
  forall path x, In x (preorder path d) -> depth path <= depth (fst x).
Proof.
  induction d as [|target|dirs readErr IH] using node_ind';
    intros Hv path x Hin.
  - destruct Hin as [<-|[]]. apply le_n.
  - destruct Hin as [<-|[]]. apply le_n.
  - destruct Hin as [<-|Hin]; [apply le_n|].
    apply in_flat_map in Hin. destruct Hin as [e [He Hin]].
    destruct (validTree_entry _ _ _ Hv He) as [Hname Hsub].
    rewrite Forall_forall in IH.
    specialize (IH e He Hsub _ _ Hin).
    rewrite (depth_Join _ _ Hname) in IH. lia.
Qed.

Lemma below_is_deeper (d : node) (path : string) :
  validTree d = true ->
  Forall (fun x => fst x <> path) (tl (preorder path d)).
Proof.
  intros Hv. apply Forall_forall. intros x Hin Heq.
  destruct d as [|target|dirs readErr]; try contradiction.
  simpl in Hin. apply in_flat_map in Hin. destruct Hin as [e [He Hin]].
  destruct (validTree_entry _ _ _ Hv He) as [Hname Hsub].
  pose proof (preorder_depth _ Hsub _ _ Hin) as Hd.
  rewrite (depth_Join _ _ Hname), Heq in Hd. lia.
Qed.

(** What [Clean] keeps of a path below [path] ends with what it keeps of
    [path]. *)
Lemma preorder_kept (d : node) :
  validTree d = true ->
  forall path x, In x (preorder path d) ->
    exists above, Filepath.kept (fst x) = (above ++ Filepath.kept path)%list.
Proof.
  induction d as [|target|dirs readErr IH] using node_ind';
    intros Hv path x Hin.
  - destruct Hin as [<-|[]]. now exists [].
  - destruct Hin as [<-|[]]. now exists [].
  - destruct Hin as [<-|Hin]; [now exists []|].
    apply in_flat_map in Hin. destruct Hin as [e [He Hin]].
    destruct (validTree_entry _ _ _ Hv He) as [Hname Hsub].
    rewrite Forall_forall in IH.
    destruct (IH e He Hsub _ _ Hin) as [above Habove].
    rewrite (kept_Join _ _ Hname) in Habove.
    exists (above ++ [fst e])%list. now rewrite <- app_assoc.
Qed.

Lemma distinct_NoDup (l : list string) : distinct l = true -> NoDup l.
Proof.
  induction l as [|x l IH]; simpl; intros H; constructor.
  - apply andb_true_iff in H. destruct H as [H _].
    apply negb_true_iff in H. intros Hin.
    assert (existsb (String.eqb x) l = true) as E.
    { apply existsb_exists. exists x. split; [exact Hin|].
      apply String.eqb_refl. }
    congruence.
  - apply IH. now apply andb_true_iff in H.
Qed.

Lemma distinctNames_entry dirs readErr e :
  distinctNames (Dir dirs readErr) = true -> In e dirs ->
  distinctNames (snd e) = true.
Proof.
  simpl. intros H Hin. apply andb_true_iff in H. destruct H as [_ H].
  exact (proj1 (forallb_forall _ _) H e Hin).
Qed.

(** No two entries of a tree have the same path. *)
Lemma preorder_paths_differ (d : node) :
  validTree d = true -> distinctNames d = true ->
  forall path, NoDup (map fst (preorder path d)).
Proof.
  induction d as [|target|dirs readErr IH] using node_ind';
    intros Hv Hd path.
  - repeat constructor. intros [].
  - repeat constructor. intros [].
  - cbn [preorder map fst]. constructor.
    + intros Hin. apply in_map_iff in Hin. destruct Hin as [x [Hx Hin]].
      pose proof (below_is_deeper _ path Hv) as Hb.
      rewrite Forall_forall in Hb. exact (Hb x Hin Hx).
    + assert (Hnames : NoDup (map fst dirs)).
      { apply distinct_NoDup. simpl in Hd.
        now apply andb_true_iff in Hd. }
      assert (Hsub : forall e, In e dirs ->
                validName (fst e) = true /\ validTree (snd e) = true
                /\ distinctNames (snd e) = true).
      { intros e He. destruct (validTree_entry _ _ _ Hv He) as [? ?].
        repeat split; try assumption.
        exact (distinctNames_entry _ _ _ Hd He). }
      clear Hv Hd.
      induction dirs as [|e dirs IHdirs]; [constructor|].
      cbn [flat_map]. rewrite map_app.
      inversion IH as [|? ? IHe IHrest]; subst.
      inversion Hnames as [|? ? Hfresh Hnames']; subst.
      destruct (Hsub e (or_introl eq_refl)) as [Hname [Hve Hde]].
      apply NoDup_app.
      * now apply IHe.
      * apply IHdirs; [exact IHrest | exact Hnames' |].
        intros e' He'. apply Hsub. now right.
      * intros p Hp Hq.
        apply in_map_iff in Hp. destruct Hp as [x [Hx Hxin]].
        apply in_map_iff in Hq. destruct Hq as [y [Hy Hyin]].
        apply in_flat_map in Hyin. destruct Hyin as [e' [He' Hyin]].
        destruct (Hsub e' (or_intror He')) as [Hname' [Hve' _]].
        destruct (preorder_kept _ Hve _ _ Hxin) as [a Ha].
        destruct (preorder_kept _ Hve' _ _ Hyin) as [b Hb].
        rewrite (kept_Join _ _ Hname) in Ha.
        rewrite (kept_Join _ _ Hname') in Hb.
        rewrite Hx, <- Hy in Ha. rewrite Ha in Hb.
        change (a ++ fst e :: Filepath.kept path)%list
          with (a ++ [fst e] ++ Filepath.kept path)%list in Hb.
        change (b ++ fst e' :: Filepath.kept path)%list
          with (b ++ [fst e'] ++ Filepath.kept path)%list in Hb.
        rewrite !app_assoc in Hb. apply app_inv_tail in Hb.
        apply app_inj_tail in Hb. destruct Hb as [_ Hb].
        apply Hfresh. rewrite Hb. now apply in_map.
Qed.

Lemma same_path_same_node (l : list (string * node)) p a b :
  NoDup (map fst l) -> In (p, a) l -> In (p, b) l -> a = b.
Proof.
  induction l as [|[q c] l IH]; simpl; intros Hnd Ha Hb; [contradiction|].
  inversion Hnd as [|? ? Hfresh Hnd']; subst.
  destruct Ha as [Ha|Ha], Hb as [Hb|Hb].
  - congruence.
  - injection Ha as -> ->. destruct Hfresh.
    change p with (fst (p, b)). now apply in_map.
  - injection Hb as -> ->. destruct Hfresh.
    change p with (fst (p, a)). now apply in_map.
  - now apply IH.
Qed.

(** The path of an entry that is not a directory, a symbolic link for
    one, is not among the directories. *)
Lemma other_entries_excluded (d : node) (path p : string) (n : node) :
  validTree d = true -> distinctNames d = true ->
  In (p, n) (preorder path d) -> isDir n = false ->
  ~ In p (directories path d).
Proof.
  intros Hv Hd Hin Hn Hp. unfold directories, dirPaths in Hp.
  apply in_map_iff in Hp. destruct Hp as [[q d'] [Hq Hp]].
  simpl in Hq. subst q. apply filter_In in Hp. destruct Hp as [Hp Hdir].
  pose proof (same_path_same_node _ _ _ _
                (preorder_paths_differ d Hv Hd path) Hin Hp) as <-.
  simpl in Hdir. congruence.
Qed.

Section WithTables.

Context {U : Fmt.UnicodeTables}.

(** A walk that ends without error has collected the directories. *)
Lemma scan_collect root l dirs dirs' :
  scan root l dirs = (None, dirs') -> dirs' = (dirs ++ dirPaths l)%list.
Proof.
  unfold dirPaths. revert dirs.
  induction l as [|[p d] l IH]; intros dirs; simpl.
  - intros E. injection E as <-. now rewrite app_nil_r.
  - destruct (String.eqb p root && negb (isDir d)); [discriminate|].
    destruct (isDir d).
    + destruct (readErrOf d); [discriminate|].
      intros E. rewrite (IH _ E), <- app_assoc. reflexivity.
    + apply IH.
Qed.

Lemma scan_below root l :
  Forall (fun x => fst x <> root) l ->
  forall dirs,
    match firstSome (fun e => readErrOf (snd e)) l with
    | Some e => exists dirs', scan root l dirs = (Some (PathError e), dirs')
    | None => scan root l dirs = (None, (dirs ++ dirPaths l)%list)
    end.
Proof.
  unfold dirPaths.
  induction 1 as [|[p d] l Hp _ IH]; intros dirs; simpl.
  - now rewrite app_nil_r.
  - simpl in Hp. apply String.eqb_neq in Hp. rewrite Hp. simpl.
    destruct d as [|target|entries [e|]]; simpl.
    + apply IH.
    + apply IH.
    + eexists. reflexivity.
    + specialize (IH (dirs ++ [p])%list).
      destruct (firstSome _ l); [exact IH|].
      now rewrite IH, <- app_assoc.
Qed.

(** The walk from a directory whose names are those of a listing. *)
Lemma scan_tree root entries readErr :
  validTree (Dir entries readErr) = true ->
  match firstReadErr root (Dir entries readErr) with
  | Some e =>
    exists dirs',
      scan root (preorder root (Dir entries readErr)) []
      = (Some (PathError e), dirs')
  | None =>
    scan root (preorder root (Dir entries readErr)) []
    = (None, directories root (Dir entries readErr))
  end.
Proof.
  intros Hv. pose proof (below_is_deeper _ root Hv) as Hb.
  unfold firstReadErr, directories, dirPaths.
  cbn [preorder tl] in Hb |- *.
  cbn [scan firstSome snd readErrOf isDir entryOf IsDir negb filter map fst].
  rewrite String.eqb_refl. cbn [andb app].
  destruct readErr as [e|].
  - eexists. reflexivity.
  - exact (scan_below root _ Hb [root]).
Qed.

(** C2: when [findDirs] succeeds, the root is a directory and the result
    is the list of the directories of its tree in depth-first pre-order, the
    root path first; entries that [Lstat] does not report as directories are
    not in it, so that the path of a symbolic link never appears, whatever
    its target. *)
Theorem findDirs_directories (fs : FS) (path : string) (dirs : list string) :
  findDirs fs path = (dirs, None) ->
  exists d,
    fs path = inr d /\ isDir d = true /\
    dirs = directories path d /\
    (exists rest, dirs = path :: rest) /\
    (validTree d = true -> distinctNames d = true ->
     forall p target,
       In (p, Symlink target) (preorder path d) -> ~ In p dirs).
Proof.
  rewrite findDirs_scan. destruct (fs path) as [e|d]; [discriminate|].
  destruct (scan path (preorder path d) []) as [[err|] dirs'] eqn:E;
    [discriminate|].
  intros H. injection H as ->.
  assert (Hd : isDir d = true).
  { destruct d as [|target|entries readErr]; [| |reflexivity];
      cbn [preorder scan isDir entryOf IsDir negb] in E;
      rewrite String.eqb_refl in E; discriminate E. }
  apply scan_collect in E. simpl in E. subst dirs.
  exists d. repeat split; try assumption; try reflexivity.
  - destruct d; try discriminate Hd. eexists. reflexivity.
  - intros Hv Hdn p target Hin.
    now apply (other_entries_excluded d path p (Symlink target)).
Qed.



End WithTables.

Import Examples.

Lemma findDirs_directories_witness :
  findDirs (U := noTables) fs "root" = (["root"; "root/sub"], None) /\
  exists d,
    fs "root" = inr d /\ isDir d = true /\
    ["root"; "root/sub"] = directories "root" d /\
    (exists rest, ["root"; "root/sub"] = "root" :: rest) /\
    (validTree d = true -> distinctNames d = true ->
     forall p target,
       In (p, Symlink target) (preorder "root" d) ->
       ~ In p ["root"; "root/sub"]).
Proof.
  split; [reflexivity|].
  apply (findDirs_directories (U := noTables) fs "root"). reflexivity.
Defined.



End FindDirsFacts.

(** * Further properties *)

(** ** Containment *)

Module HasFacts.

Import Event Spec.

Local Open Scope Z_scope.

Lemma Has_testbit (o h : Op) :
  Has o h = true <->
  forall i, 0 <= i -> Z.testbit h i = true -> Z.testbit o i = true.
Proof.
  unfold Has. rewrite Z.eqb_eq. split.
  - intros E i _ Hi. rewrite <- E, Z.land_spec in Hi.
    now apply andb_true_iff in Hi.
  - intros Hbits. apply Z.bits_inj'. intros i Hi.
    rewrite Z.land_spec. destruct (Z.testbit h i) eqn:Hh.
    + now rewrite (Hbits i Hi Hh).
    + apply andb_false_r.
Qed.

(** A flag is held exactly when its bit is set. *)
Lemma Has_flag (o : Op) (k : Z) :
  0 <= k -> Has o (iota_shift k) = Z.testbit o k.
Proof.
  intros Hk. unfold iota_shift. rewrite Z.shiftl_1_l.
  destruct (Z.testbit o k) eqn:Hb.
  - apply Has_testbit. intros i Hi Hp.
    rewrite (Z.pow2_bits_eqb k i Hk) in Hp.
    apply Z.eqb_eq in Hp. now subst i.
  - destruct (Has o (2 ^ k)) eqn:E; [|reflexivity].
    rewrite Has_testbit in E. rewrite <- Hb. symmetry. apply (E k Hk).
    rewrite (Z.pow2_bits_eqb k k Hk). apply Z.eqb_refl.
Qed.

(** X1: an event has a union of operations exactly when it has each of
    them; so has an operation value. *)
Theorem Has_union (e : Event) (o a b : Op) :
  Has o (Z.lor a b) = Has o a && Has o b /\
  Event_Has e (Z.lor a b) = Event_Has e a && Event_Has e b.
Proof.
  assert (G : forall o, Has o (Z.lor a b) = Has o a && Has o b).
  { clear. intros o. apply eq_true_iff_eq.
    rewrite andb_true_iff, !Has_testbit. split.
    - intros H. split; intros i Hi Hb; apply (H i Hi);
        rewrite Z.lor_spec, Hb; [reflexivity | apply orb_true_r].
    - intros [Ha Hb] i Hi Hab. rewrite Z.lor_spec in Hab.
      apply orb_true_iff in Hab. destruct Hab; auto. }
  split; [apply G | apply (G (EOp e))].
Qed.

(** X2: containment orders the operation values: it is reflexive,
    transitive, and two values that contain each other are equal. *)
Theorem Has_order (a b c : Op) :
  Has a a = true /\
  (Has a b = true -> Has b c = true -> Has a c = true) /\
  (Has a b = true -> Has b a = true -> a = b).
Proof.
  repeat split.
  - unfold Has. rewrite Z.land_diag. apply Z.eqb_refl.
  - rewrite !Has_testbit. intros Hab Hbc i Hi Hc. auto.
  - unfold Has. rewrite !Z.eqb_eq. intros Hab Hba.
    rewrite <- Hba, Z.land_comm. exact Hab.
Qed.

Lemma Has_order_witness :
  Has 3 1 = true /\ Has 7 3 = true /\ Has 7 1 = true.
Proof.
  split; [reflexivity|]. split; [reflexivity|].
  apply (proj1 (proj2 (Has_order 7 3 1))); reflexivity.
Defined.

(** X3: adding operations to a value keeps what it had, and the added
    operation is held afterwards. *)
Theorem Has_after_union (o h x : Op) :
  Has (Z.lor o h) h = true /\
  (Has o h = true -> Has (Z.lor o x) h = true).
Proof.
  split.
  - apply Has_testbit. intros i _ Hi. rewrite Z.lor_spec, Hi.
    apply orb_true_r.
  - rewrite !Has_testbit. intros H i Hi Hh.
    rewrite Z.lor_spec, (H i Hi Hh). reflexivity.
Qed.

Lemma Has_after_union_witness :
  Has 1 1 = true /\ Has (Z.lor 1 4) 1 = true.
Proof.
  split; [reflexivity|].
  apply (proj2 (Has_after_union 1 1 4)). reflexivity.
Defined.

Lemma declared_flag (f : Op) :
  In f declared -> exists k, 0 <= k < 5 /\ f = iota_shift k.
Proof.
  intros [<-|[<-|[<-|[<-|[<-|[]]]]]];
    [exists 0 | exists 1 | exists 2 | exists 3 | exists 4];
    (split; [lia | reflexivity]).
Qed.

Lemma testbit_opOf (flags : list Op) (k : Z) :
  0 <= k ->
  (forall f, In f flags -> exists j, 0 <= j /\ f = iota_shift j) ->
  Z.testbit (opOf flags) k = true <-> In (iota_shift k) flags.
Proof.
  intros Hk. induction flags as [|f flags IH]; intros Hfl; simpl.
  - rewrite Z.bits_0. split; [discriminate | contradiction].
  - rewrite Z.lor_spec, orb_true_iff, IH by (intros; apply Hfl; now right).
    destruct (Hfl f (or_introl eq_refl)) as [j [Hj ->]].
    unfold iota_shift at 1. rewrite Z.shiftl_1_l, (Z.pow2_bits_eqb j k Hj).
    rewrite Z.eqb_eq. split.
    + intros [->|H]; [now left | now right].
    + intros [H|H]; [left | now right].
      unfold iota_shift in H. rewrite !Z.shiftl_1_l in H.
      apply (Z.pow_inj_r 2); [lia | lia | lia | exact H].
Qed.

(** X4: an operation built from a set of flags has exactly the flags of
    the set. *)
Theorem Has_opOf (flags : list Op) (f : Op) :
  incl flags declared -> In f declared ->
  (Has (opOf flags) f = true <-> In f flags).
Proof.
  intros Hincl Hf.
  destruct (declared_flag f Hf) as [k [Hk ->]].
  rewrite Has_flag by lia. apply testbit_opOf; [lia|].
  intros g Hg. destruct (declared_flag g (Hincl g Hg)) as [j [Hj ->]].
  exists j. split; [lia | reflexivity].
Qed.

Lemma Has_opOf_witness :
  incl [Create; Rename] declared /\ In Write declared /\
  (Has (opOf [Create; Rename]) Write = true <-> In Write [Create; Rename]).
Proof.
  assert (H1 : incl [Create; Rename] declared).
  { intros f [<-|[<-|[]]]; simpl; auto. }
  assert (H2 : In Write declared) by (simpl; auto).
  split; [exact H1|]. split; [exact H2|].
  exact (Has_opOf [Create; Rename] Write H1 H2).
Defined.

End HasFacts.

(** ** The label and the text, further *)

Module LabelFacts.

Import Event Fmt EventText Spec StringFacts HasFacts EventTextFacts.

Local Open Scope Z_scope.

Lemma known_ones : known = Z.ones 5.
Proof. reflexivity. Qed.

Lemma testbit_land_known (o : Op) (i : Z) :
  0 <= i ->
  Z.testbit (Z.land o known) i = Z.testbit o i && (i <? 5).
Proof.
  intros Hi. rewrite Z.land_spec, known_ones. f_equal.
  destruct (i <? 5) eqn:E.
  - apply Z.ones_spec_low. apply Z.ltb_lt in E. lia.
  - apply Z.ones_spec_high. apply Z.ltb_ge in E. lia.
Qed.

Lemma tests_land_known (o : Op) : tests (Z.land o known) = tests o.
Proof.
  unfold tests, Create, Remove, Write, Rename, Chmod.
  rewrite !Has_flag by lia. rewrite !testbit_land_known by lia.
  simpl. now rewrite !andb_true_r.
Qed.

Lemma tests_decide_known (o1 o2 : Op) :
  tests o1 = tests o2 -> Z.land o1 known = Z.land o2 known.
Proof.
  unfold tests, Create, Remove, Write, Rename, Chmod.
  rewrite !Has_flag by lia. intros [= H0 H2 H1 H3 H4].
  apply Z.bits_inj'. intros i Hi. rewrite !testbit_land_known by exact Hi.
  destruct (i <? 5) eqn:E; [|now rewrite !andb_false_r].
  apply Z.ltb_lt in E. rewrite !andb_true_r.
  assert (i = 0 \/ i = 1 \/ i = 2 \/ i = 3 \/ i = 4) as
      [->|[->|[->|[->| ->]]]] by lia; assumption.
Qed.

Lemma Op_String_tests (o1 o2 : Op) :
  Op_String o1 = Op_String o2 <-> tests o1 = tests o2.
Proof.
  unfold Op_String, tests. split.
  - destruct (Has o1 Create), (Has o1 Remove), (Has o1 Write),
      (Has o1 Rename), (Has o1 Chmod),
      (Has o2 Create), (Has o2 Remove), (Has o2 Write),
      (Has o2 Rename), (Has o2 Chmod);
      intros E; first [reflexivity | discriminate E].
  - now intros [= -> -> -> -> ->].
Qed.

(** X5: the label tells the five flags apart and nothing else: two values
    have the same label exactly when they agree on the five flags, and the
    label is the sentinel exactly when none of the five is set, whatever
    other bits are. *)
Theorem Op_String_known_flags (o1 o2 : Op) :
  (Op_String o1 = Op_String o2 <-> Z.land o1 known = Z.land o2 known) /\
  (Op_String o1 = "[no events]"%string <-> Z.land o1 known = 0).
Proof.
  assert (G : forall a b,
             Op_String a = Op_String b <-> Z.land a known = Z.land b known).
  { intros a b. rewrite Op_String_tests. split.
    - apply tests_decide_known.
    - intros E. now rewrite <- (tests_land_known a), E, tests_land_known. }
  split; [apply G|].
  change "[no events]"%string with (Op_String 0).
  rewrite G. reflexivity.
Qed.

(** X6: a tag stands in the label exactly when the value has its flag. *)
Theorem tag_in_label (o f : Op) (tag : string) :
  In (f, tag) ordered ->
  (In tag (splitPipe (Op_String o)) <-> Has o f = true).
Proof.
  unfold ordered, Op_String.
  intros [E|[E|[E|[E|[E|[]]]]]]; injection E as <- <-;
    destruct (Has o Create), (Has o Remove), (Has o Write),
      (Has o Rename), (Has o Chmod);
    (split; [intros H; first [reflexivity | exfalso; simpl in H;
                                repeat (destruct H as [H|H];
                                        [discriminate H|]);
                                exact H]
            | intros H; first [discriminate H | simpl; tauto]]).
Qed.

Lemma tag_in_label_witness :
  In (Write, "WRITE"%string) ordered /\
  (In "WRITE"%string (splitPipe (Op_String 3)) <-> Has 3 Write = true).
Proof.
  assert (H : In (Write, "WRITE"%string) ordered) by (simpl; auto).
  split; [exact H|]. exact (tag_in_label 3 Write "WRITE" H).
Defined.

Section WithTables.

Context {U : UnicodeTables}.

(** X7: in the text of an event the label stands first, in a column of 13
    to 32 bytes, and the quoted path begins one space after it. *)
Theorem Event_String_column (e : Event) :
  exists col : string,
    Event_String e = (col ++ " " ++ Quote (Name e))%string /\
    (13 <= String.length col <= 32)%nat /\
    String.prefix (Op_String (EOp e)) col = true.
Proof.
  exists (padString 13 true (Op_String (EOp e))).
  split; [reflexivity|].
  unfold Op_String.
  destruct (Has (EOp e) Create), (Has (EOp e) Remove), (Has (EOp e) Write),
    (Has (EOp e) Rename), (Has (EOp e) Chmod);
    (split; [cbv; lia | reflexivity]).
Qed.

Lemma quoteLoop_verbatim (name : string) :
  verbatim name = true -> quoteLoop 0 name = name.
Proof.
  induction name as [|c name IH]; simpl verbatim; intros H.
  - reflexivity.
  - apply andb_true_iff in H. destruct H as [H Hrest].
    apply andb_true_iff in H. destruct H as [H Hb].
    apply andb_true_iff in H. destruct H as [Hp Hq].
    apply negb_true_iff in Hq, Hb.
    rewrite (quoteLoop_plain c name Hp), (IH Hrest).
    unfold escaped. now rewrite Hq, Hb.
Qed.

(** X8: a path of printable ASCII without double quote and backslash is
    written as it is between two double quotes. *)
Theorem Event_String_verbatim (e : Event) :
  verbatim (Name e) = true ->
  Event_String e
  = (Op_String (EOp e)
     ++ spaces (13 - String.length (Op_String (EOp e)))
     ++ " " ++ String dquote (Name e ++ String dquote ""))%string.
Proof.
  intros H. unfold Event_String, Sprintf_s13_q, Quote.
  rewrite padString_label, (quoteLoop_verbatim _ H), append_assoc.
  reflexivity.
Qed.

Lemma text_reads_back (e : Event) :
  (0 <= EOp e < 32) -> plain (Name e) = true ->
  parseEvent (Event_String e) = Some e.
Proof.
  intros Ho Hp. unfold parseEvent.
  pose proof (label_reads_back (EOp e) Ho) as Hl.
  unfold labelReadsBack in Hl. apply andb_true_iff in Hl.
  destruct Hl as [Hq Hl].
  rewrite Event_String_split, (splitAtQuote_app _ _ Hq).
  destruct (parseLabel _) as [o'|]; [|discriminate Hl].
  apply Z.eqb_eq in Hl. subst o'.
  rewrite (unquote_quoteLoop (Name e) Hp).
  now destruct e.
Qed.

(** X19: two events whose operations are sets of the five flags and whose
    paths are printable ASCII have the same text only when they are the
    same event. *)
Theorem Event_String_injective (e1 e2 : Event) :
  (0 <= EOp e1 < 32) -> plain (Name e1) = true ->
  (0 <= EOp e2 < 32) -> plain (Name e2) = true ->
  Event_String e1 = Event_String e2 -> e1 = e2.
Proof.
  intros Ho1 Hp1 Ho2 Hp2 E.
  pose proof (text_reads_back e1 Ho1 Hp1) as R1.
  pose proof (text_reads_back e2 Ho2 Hp2) as R2.
  rewrite E, R2 in R1. now injection R1.
Qed.

End WithTables.

Lemma Event_String_injective_witness :
  (0 <= 3 < 32) /\ plain "dir/file" = true /\
  Event_String (U := Examples.noTables) (mkEvent "dir/file" 3)
  = Event_String (U := Examples.noTables) (mkEvent "dir/file" 3) /\
  mkEvent "dir/file" 3 = mkEvent "dir/file" 3.
Proof.
  split; [lia|]. split; [reflexivity|]. split; [reflexivity|].
  apply (Event_String_injective (U := Examples.noTables)
           (mkEvent "dir/file" 3) (mkEvent "dir/file" 3));
    first [reflexivity | simpl; lia].
Defined.

Lemma Event_String_verbatim_witness :
  verbatim "dir/file" = true /\
  Event_String (U := Examples.noTables) (mkEvent "dir/file" Chmod)
  = ("CHMOD" ++ spaces 8 ++ " "
     ++ String dquote ("dir/file" ++ String dquote ""))%string.
Proof.
  split; [reflexivity|].
  apply (Event_String_verbatim (U := Examples.noTables)
           (mkEvent "dir/file" Chmod)).
  reflexivity.
Defined.

End LabelFacts.

(** ** The recursion marker, further *)

Module MarkerFacts.

Import Filepath Spec StringFacts CleanFacts PathFacts.

Lemma render_not_empty (r : bool) (out : list string) : render r out <> "".
Proof.
  unfold render.
  destruct (String.eqb_spec
              ((if r then "/" else "") ++ String.concat "/" (rev out)) "");
    [discriminate | assumption].
Qed.

Lemma rooted_render (r : bool) (out : list string) :
  stackOK r out = true -> rooted (render r out) = r.
Proof.
  intros H. pose proof (stackOK_all_kept _ _ H) as Hall.
  apply Forall_rev in Hall. unfold render.
  destruct r.
  - reflexivity.
  - change ("" ++ String.concat "/" (rev out))
      with (String.concat "/" (rev out)).
    destruct (rev out) as [|x l]; [reflexivity|].
    pose proof (Forall_inv Hall) as Hx. simpl in Hx.
    rewrite (concat_not_empty x l Hx). now apply rooted_concat.
Qed.

Lemma Clean_render (r : bool) (out : list string) :
  stackOK r out = true -> Clean (render r out) = render r out.
Proof.
  intros H. unfold Clean.
  destruct (String.eqb_spec (render r out) "") as [E|_].
  - now destruct (render_not_empty r out).
  - now rewrite (rooted_render _ _ H), (kept_render _ _ H).
Qed.

(** Cleaning a cleaned path changes nothing. *)
Lemma Clean_idempotent (s : string) : Clean (Clean s) = Clean s.
Proof.
  destruct (String.eqb_spec s "") as [->|Hs]; [reflexivity|].
  assert (E : Clean s = render (rooted s) (kept s)).
  { unfold Clean. now destruct (String.eqb_spec s ""). }
  rewrite E. apply Clean_render, kept_ok.
Qed.

Lemma kept_trailing_separator (s : string) :
  s <> "" -> kept (s ++ "/") = kept s.
Proof.
  intros Hs. unfold kept.
  change (s ++ "/") with (s ++ String Separator "").
  rewrite (rooted_app _ _ Hs), elements_app_sep, fold_left_app.
  reflexivity.
Qed.

Lemma Clean_trailing_separator (s : string) :
  s <> "" -> Clean (s ++ "/") = Clean s.
Proof.
  intros Hs. unfold Clean.
  destruct (String.eqb_spec (s ++ "/") "") as [E|_].
  { now destruct (append_eq_nil _ _ E). }
  destruct (String.eqb_spec s "") as [E|_]; [contradiction|].
  now rewrite (rooted_app _ _ Hs), (kept_trailing_separator _ Hs).
Qed.

(** X9: a marker at the very end of the path is stripped, and what is
    returned is the cleaned path before it. *)
Theorem recursivePath_strips_marker (dir : string) :
  dir <> "" -> recursivePath (dir ++ "/...") = (Clean dir, true).
Proof.
  intros Hd.
  rewrite (recursivePath_marked _ (Base_marker_last dir)), Dir_marker_last.
  now rewrite (Clean_trailing_separator _ Hd).
Qed.

Lemma recursivePath_strips_marker_witness :
  "a//b/./c" <> "" /\ recursivePath "a//b/./c/..." = ("a/b/c", true).
Proof.
  split; [discriminate|].
  apply (recursivePath_strips_marker "a//b/./c"). discriminate.
Defined.

Lemma Base_trimmed (p q : string) :
  p <> "" -> q <> "" ->
  String.substring 0 (trimmedLen p (String.length p)) p
  = String.substring 0 (trimmedLen q (String.length q)) q ->
  Base p = Base q.
Proof.
  intros Hp Hq E. unfold Base.
  destruct (String.eqb_spec p ""); [contradiction|].
  destruct (String.eqb_spec q ""); [contradiction|].
  now rewrite E.
Qed.

Lemma trimmedLen_marker (dir : string) :
  trimmedLen (dir ++ "/...") (String.length (dir ++ "/..."))
  = String.length (dir ++ "/...").
Proof.
  rewrite length_append.
  replace (String.length dir + String.length "/...")
    with (S (String.length dir + 3)) by (simpl; lia).
  cbn [trimmedLen]. now rewrite at_index_append.
Qed.

Lemma trimmedLen_marker_separator (dir : string) :
  trimmedLen (dir ++ "/.../") (String.length (dir ++ "/.../"))
  = String.length (dir ++ "/...").
Proof.
  rewrite !length_append.
  replace (String.length dir + String.length "/.../")
    with (S (String.length dir + 4)) by (simpl; lia).
  cbn [trimmedLen]. rewrite at_index_append.
  cbn [at_index String.get IsPathSeparator].
  change (Ascii.eqb "/" Separator) with true. cbv iota.
  replace (String.length dir + 4) with (S (String.length dir + 3)) by lia.
  cbn [trimmedLen]. rewrite at_index_append. simpl. lia.
Qed.

Lemma kept_marker (dir : string) :
  kept (dir ++ "/...") = "..." :: kept dir.
Proof.
  destruct (String.eqb_spec dir "") as [->|Hd]; [reflexivity|].
  unfold kept.
  change (dir ++ "/...") with (dir ++ String Separator "...").
  rewrite (rooted_app _ _ Hd), elements_app_sep, fold_left_app.
  reflexivity.
Qed.

(** X11: when a separator follows the marker, the path is reported
    recursive all the same, and the marker is still the last element of the
    path that is returned. *)
Theorem recursivePath_marker_then_separator (dir : string) :
  recursivePath (dir ++ "/.../") = (Clean (dir ++ "/..."), true) /\
  kept (fst (recursivePath (dir ++ "/.../"))) = "..." :: kept dir.
Proof.
  assert (Hp : dir ++ "/.../" <> "").
  { intros E. now destruct (append_eq_nil _ _ E). }
  assert (Hq : dir ++ "/..." <> "").
  { intros E. now destruct (append_eq_nil _ _ E). }
  assert (Hb : Base (dir ++ "/.../") = "...").
  { rewrite <- (Base_marker_last dir). apply (Base_trimmed _ _ Hp Hq).
    rewrite trimmedLen_marker, trimmedLen_marker_separator, substring_all.
    change (dir ++ "/.../") with (dir ++ "/..." ++ "/").
    now rewrite <- append_assoc, substring_append_l. }
  assert (Hd : Dir (dir ++ "/.../") = Clean (dir ++ "/...")).
  { unfold Dir.
    assert (Hl : afterLastSep (dir ++ "/.../")
                   (String.length (dir ++ "/.../"))
                 = String.length (dir ++ "/.../")).
    { rewrite length_append.
      replace (String.length dir + String.length "/.../")
        with (S (String.length dir + 4)) by (simpl; lia).
      cbn [afterLastSep]. now rewrite at_index_append. }
    rewrite Hl, substring_all.
    change (dir ++ "/.../") with (dir ++ "/..." ++ "/").
    rewrite <- append_assoc. now apply Clean_trailing_separator. }
  rewrite (recursivePath_marked _ Hb), Hd. split; [reflexivity|].
  simpl fst. now rewrite kept_Clean, kept_marker.
Qed.

End MarkerFacts.

(** ** [findDirs], further *)

Module EnumerationFacts.

Import Filepath Errors Walk Spec StringFacts CleanFacts WalkFacts
  FindDirsFacts MarkerFacts.

Lemma Join_clean (path name : string) :
  validName name = true -> Clean (Join path name) = Join path name.
Proof.
  intros H. destruct (validName_spec _ H) as [Hk _].
  destruct (keptElement_spec _ Hk) as [E0 _].
  unfold Join.
  destruct (String.eqb path ""); simpl negb; cbv iota.
  - rewrite E0. simpl negb. cbv iota. apply Clean_idempotent.
  - apply Clean_idempotent.
Qed.

(** Below the root every path is a cleaned one. *)
Lemma below_is_clean (d : node) :
  validTree d = true ->
  forall path x, In x (tl (preorder path d)) -> Clean (fst x) = fst x.
Proof.
  induction d as [|target|dirs readErr IH] using node_ind';
    intros Hv path x Hin; try contradiction.
  cbn [preorder tl] in Hin.
  apply in_flat_map in Hin. destruct Hin as [e [He Hin]].
  destruct (validTree_entry _ _ _ Hv He) as [Hname Hsub].
  rewrite Forall_forall in IH.
  destruct (snd e) as [|target|dirs' readErr'] eqn:Ed;
    try (destruct Hin as [<-|[]]; now apply Join_clean).
  cbn [preorder] in Hin. destruct Hin as [<-|Hin].
  - now apply Join_clean.
  - rewrite <- Ed in Hsub. specialize (IH e He Hsub (Join path (fst e)) x).
    rewrite Ed in IH. now apply IH.
Qed.

Lemma NoDup_dirPaths (l : list (string * node)) :
  NoDup (map fst l) -> NoDup (dirPaths l).
Proof.
  unfold dirPaths. induction l as [|[p d] l IH]; simpl; intros H.
  - constructor.
  - inversion H as [|? ? Hfresh Hrest]; subst.
    destruct (isDir d); [|now apply IH].
    simpl. constructor; [|now apply IH].
    intros Hin. apply Hfresh.
    apply in_map_iff in Hin. destruct Hin as [x [Hx Hin]].
    apply filter_In in Hin. apply in_map_iff. exists x. tauto.
Qed.

Lemma in_dirPaths (l : list (string * node)) (p : string) :
  In p (dirPaths l) -> exists d, In (p, d) l /\ isDir d = true.
Proof.
  unfold dirPaths. intros Hin.
  apply in_map_iff in Hin. destruct Hin as [[q d] [Hq Hin]].
  simpl in Hq. subst q. apply filter_In in Hin. now exists d.
Qed.

Section WithTables.

Context {U : Fmt.UnicodeTables}.

Lemma findDirs_success (fs : FS) (path : string) (d : node) dirs :
  fs path = inr d -> findDirs fs path = (dirs, None) ->
  dirs = directories path d /\ isDir d = true.
Proof.
  intros Hfs. rewrite findDirs_scan, Hfs.
  destruct (scan path (preorder path d) []) as [[err|] dirs'] eqn:E;
    [discriminate|].
  intros H. injection H as ->. split.
  - now apply scan_collect in E.
  - destruct d as [|target|entries readErr]; [| |reflexivity];
      cbn [preorder scan isDir entryOf IsDir negb] in E;
      rewrite String.eqb_refl in E; discriminate E.
Qed.

(** X12: no path is returned twice. *)
Theorem findDirs_no_duplicates (fs : FS) (path : string) (d : node) dirs :
  fs path = inr d -> validTree d = true -> distinctNames d = true ->
  findDirs fs path = (dirs, None) -> NoDup dirs.
Proof.
  intros Hfs Hv Hd H.
  destruct (findDirs_success _ _ _ _ Hfs H) as [-> _].
  apply NoDup_dirPaths. now apply preorder_paths_differ.
Qed.

(** X13: every path returned lies under the root: the elements of the
    cleaned root are the first elements of the path. *)
Theorem findDirs_under_root (fs : FS) (path : string) (d : node) dirs p :
  fs path = inr d -> validTree d = true ->
  findDirs fs path = (dirs, None) -> In p dirs ->
  exists names, rev (kept p) = (rev (kept path) ++ names)%list.
Proof.
  intros Hfs Hv H Hin.
  destruct (findDirs_success _ _ _ _ Hfs H) as [-> _].
  apply in_dirPaths in Hin. destruct Hin as [n [Hin _]].
  destruct (preorder_kept d Hv path _ Hin) as [above Ha].
  simpl in Ha. exists (rev above). now rewrite Ha, rev_app_distr.
Qed.

(** X14: the root is returned as it was given, and every other path in
    cleaned form. *)
Theorem findDirs_cleaned (fs : FS) (path : string) (d : node) dirs :
  fs path = inr d -> validTree d = true ->
  findDirs fs path = (dirs, None) ->
  hd_error dirs = Some path /\ Forall (fun p => Clean p = p) (tl dirs).
Proof.
  intros Hfs Hv H.
  destruct (findDirs_success _ _ _ _ Hfs H) as [-> Hd].
  destruct d as [|target|entries readErr]; try discriminate Hd.
  split; [reflexivity|].
  unfold directories, dirPaths. cbn [preorder filter snd isDir entryOf IsDir map tl].
  apply Forall_forall. intros p Hin.
  apply in_dirPaths in Hin. destruct Hin as [n [Hin _]].
  exact (below_is_clean _ Hv path (p, n) Hin).
Qed.

(** X15: on a tree with the names of a listing, [findDirs] succeeds
    exactly when the root is a directory and every directory under it can
    be read. *)
Theorem findDirs_succeeds_iff (fs : FS) (path : string) (d : node) :
  fs path = inr d -> validTree d = true ->
  (snd (findDirs fs path) = None <->
   isDir d = true /\ firstReadErr path d = None).
Proof.
  intros Hfs Hv. rewrite findDirs_scan, Hfs.
  destruct d as [|target|entries readErr].
  - cbn [preorder scan isDir entryOf IsDir negb].
    rewrite String.eqb_refl. simpl. split; [discriminate | now intros [? _]].
  - cbn [preorder scan isDir entryOf IsDir negb].
    rewrite String.eqb_refl. simpl. split; [discriminate | now intros [? _]].
  - pose proof (scan_tree path entries readErr Hv) as Hs.
    destruct (firstReadErr path (Dir entries readErr)) as [e|].
    + destruct Hs as [dirs' ->]. simpl.
      split; [discriminate | now intros [_ ?]].
    + rewrite Hs. simpl. now split.
Qed.

(** X16: an error of [findDirs] is [ErrNotDirectory] exactly when the root
    is there and is not a directory. *)
Theorem findDirs_ErrNotDirectory_iff (fs : FS) (path : string) dirs err :
  (forall d, fs path = inr d -> validTree d = true) ->
  findDirs fs path = (dirs, Some err) ->
  (Is err ErrNotDirectory = true <->
   exists d, fs path = inr d /\ isDir d = false).
Proof.
  intros Hv. rewrite findDirs_scan.
  destruct (fs path) as [e|d] eqn:Hfs.
  - intros [= _ <-]. split; [discriminate|].
    intros [d [Hd _]]. discriminate Hd.
  - specialize (Hv d eq_refl).
    destruct d as [|target|entries readErr].
    + cbn [preorder scan isDir entryOf IsDir negb].
      rewrite String.eqb_refl. intros [= _ <-].
      split; [intros _; now exists File | reflexivity].
    + cbn [preorder scan isDir entryOf IsDir negb].
      rewrite String.eqb_refl. intros [= _ <-].
      split; [intros _; now exists (Symlink target) | reflexivity].
    + pose proof (scan_tree path entries readErr Hv) as Hs.
      destruct (firstReadErr path (Dir entries readErr)) as [e|].
      * destruct Hs as [dirs' ->]. intros [= _ <-].
        split; [discriminate|].
        intros [d [[= <-] Hd]]. discriminate Hd.
      * rewrite Hs. discriminate.
Qed.

(** X17: a directory without directories in it gives the root alone. *)
Theorem findDirs_flat (fs : FS) (path : string) entries :
  fs path = inr (Dir entries None) ->
  forallb (fun e => validName (fst e) && negb (isDir (snd e))) entries = true ->
  findDirs fs path = ([path], None).
Proof.
  intros Hfs Hflat.
  assert (Hpre : flat_map
                   (fun e => preorder (Join path (fst e)) (snd e)) entries
                 = map (fun e => (Join path (fst e), snd e)) entries).
  { clear Hfs. induction entries as [|[name c] entries IH]; [reflexivity|].
    simpl in Hflat. apply andb_true_iff in Hflat.
    destruct Hflat as [Hc Hrest]. apply andb_true_iff in Hc.
    destruct Hc as [_ Hc]. cbn [flat_map map fst snd].
    rewrite (IH Hrest). now destruct c. }
  assert (Hv : validTree (Dir entries None) = true).
  { simpl. apply forallb_forall. intros e He.
    apply (proj1 (forallb_forall _ _) Hflat) in He.
    apply andb_true_iff in He. destruct He as [-> He].
    now destruct (snd e). }
  assert (Hnone : forall e, In e entries -> isDir (snd e) = false).
  { intros e He. apply (proj1 (forallb_forall _ _) Hflat) in He.
    apply andb_true_iff in He. destruct He as [_ He].
    now apply negb_true_iff in He. }
  pose proof (scan_tree path entries None Hv) as Hs.
  unfold firstReadErr, directories, dirPaths in Hs.
  cbn [preorder] in Hs. rewrite Hpre in Hs.
  cbn [firstSome snd readErrOf filter isDir entryOf IsDir map fst] in Hs.
  assert (E1 : firstSome (fun e : string * node => readErrOf (snd e))
                 (map (fun e => (Join path (fst e), snd e)) entries) = None).
  { clear -Hnone. induction entries as [|e entries IH]; [reflexivity|].
    simpl. rewrite IH by (intros; apply Hnone; now right).
    specialize (Hnone e (or_introl eq_refl)). now destruct (snd e). }
  assert (E2 : filter (fun e : string * node => isDir (snd e))
                 (map (fun e => (Join path (fst e), snd e)) entries) = []).
  { clear -Hnone. induction entries as [|e entries IH]; [reflexivity|].
    simpl. rewrite (Hnone e (or_introl eq_refl)).
    apply IH. intros; apply Hnone; now right. }
  rewrite E1, E2 in Hs.
  rewrite findDirs_scan, Hfs. cbn [preorder]. rewrite Hpre, Hs.
  reflexivity.
Qed.

End WithTables.

Lemma parentsFirst_more (seen seen' l : list string) :
  incl seen seen' -> parentsFirst seen l -> parentsFirst seen' l.
Proof.
  revert seen seen'. induction l as [|p l IH]; intros seen seen' Hi; simpl.
  - trivial.
  - intros [[q [name [Hq [Hv ->]]]] Hrest]. split.
    + exists q, name. repeat split; [now apply Hi | exact Hv].
    + apply (IH (Join q name :: seen)); [|exact Hrest].
      intros x [<-|Hx]; [now left | right; now apply Hi].
Qed.

(** The reading of [parentsFirst] by position. *)
Lemma parentsFirst_split (l : list string) :
  forall seen, parentsFirst seen l ->
  forall before p after, l = (before ++ p :: after)%list ->
    exists q name,
      In q (rev before ++ seen) /\ validName name = true /\ p = Join q name.
Proof.
  induction l as [|x l IH]; intros seen H before p after E.
  - now destruct before.
  - destruct H as [Hx Hrest]. destruct before as [|b before].
    + injection E as <- _. exact Hx.
    + injection E as <- E.
      destruct (IH _ Hrest before p after E) as [q [name [Hq Hn]]].
      exists q, name. split; [|exact Hn].
      simpl. rewrite <- app_assoc. exact Hq.
Qed.

(** A directory listed before the one that holds it is refused, and so is
    a path that leaves the root. *)
Example parentsFirst_refuses_child_first :
  ~ parentsFirst ["root"] ["root/a/b"; "root/a"].
Proof.
  intros [[q [name [[<-|[]] [Hv E]]]] _].
  apply (f_equal kept) in E. rewrite (kept_Join _ _ Hv) in E.
  discriminate E.
Qed.

Example parentsFirst_refuses_outside :
  ~ parentsFirst ["root"] ["elsewhere/x"; "zzz"].
Proof.
  intros [[q [name [[<-|[]] [Hv E]]]] _].
  apply (f_equal kept) in E. rewrite (kept_Join _ _ Hv) in E.
  discriminate E.
Qed.

Lemma parentsFirst_app (seen l1 l2 : list string) :
  parentsFirst seen l1 -> parentsFirst (rev l1 ++ seen) l2 ->
  parentsFirst seen (l1 ++ l2).
Proof.
  revert seen. induction l1 as [|p l1 IH]; intros seen; simpl.
  - now intros _.
  - intros [Hp H1] H2. split; [exact Hp|].
    apply IH; [exact H1|]. now rewrite <- app_assoc in H2.
Qed.

(** The directories under a directory, each after the one it is in. *)
Lemma preorder_parentsFirst (d : node) :
  validTree d = true ->
  forall path seen,
    In path seen -> parentsFirst seen (dirPaths (tl (preorder path d))).
Proof.
  induction d as [|target|entries readErr IH] using node_ind';
    intros Hv path seen Hin; try exact I.
  cbn [preorder tl].
  assert (Hsub : forall e, In e entries ->
            validName (fst e) = true /\ validTree (snd e) = true).
  { intros e He. exact (validTree_entry _ _ _ Hv He). }
  clear Hv. revert seen Hin.
  induction IH as [|[name c] entries Hc _ IHentries]; intros seen Hin.
  - exact I.
  - destruct (Hsub (name, c) (or_introl eq_refl)) as [Hname Hvc].
    cbn [fst snd] in Hname, Hvc.
    assert (Hsub' : forall e, In e entries ->
              validName (fst e) = true /\ validTree (snd e) = true).
    { intros e He. apply Hsub. now right. }
    specialize (IHentries Hsub').
    cbn [flat_map fst snd] in Hc |- *.
    unfold dirPaths. rewrite filter_app, map_app.
    fold (dirPaths (preorder (Join path name) c)).
    fold (dirPaths (flat_map
                      (fun e => preorder (Join path (fst e)) (snd e))
                      entries)).
    apply parentsFirst_app.
    + destruct c as [|target|entries' readErr']; try exact I.
      change (dirPaths (preorder (Join path name) (Dir entries' readErr')))
        with (Join path name
              :: dirPaths (tl (preorder (Join path name)
                                 (Dir entries' readErr')))).
      split.
      * exists path, name. now repeat split.
      * apply Hc; [exact Hvc | now left].
    + apply IHentries. apply in_or_app. now right.
Qed.

(** X18: every directory but the root is returned after the directory
    that holds it: wherever it stands in the result, its path is the path of
    a directory that stands before it, joined with one name of a listing (a
    name that is not empty, not [.] or [..], and has no separator). *)
Theorem findDirs_parents_first {U : Fmt.UnicodeTables}
  (fs : FS) (path : string) (d : node) dirs :
  fs path = inr d -> validTree d = true ->
  findDirs fs path = (dirs, None) ->
  hd_error dirs = Some path /\
  forall before p after,
    dirs = (before ++ p :: after)%list -> before <> [] ->
    exists q name,
      In q before /\ validName name = true /\ p = Join q name.
Proof.
  intros Hfs Hv H.
  destruct (findDirs_success _ _ _ _ Hfs H) as [-> Hd].
  destruct d as [|target|entries readErr]; try discriminate Hd.
  split; [reflexivity|].
  intros before p after E Hne.
  destruct before as [|b before]; [contradiction|].
  change (directories path (Dir entries readErr))
    with (path :: dirPaths (tl (preorder path (Dir entries readErr)))) in E.
  injection E as <- E.
  pose proof (preorder_parentsFirst _ Hv path [path] (or_introl eq_refl))
    as Hpf.
  destruct (parentsFirst_split _ _ Hpf before p after E)
    as [q [name [Hq Hn]]].
  exists q, name. split; [|exact Hn].
  apply in_app_or in Hq. destruct Hq as [Hq|[<-|[]]].
  - right. now apply in_rev.
  - now left.
Qed.

Import Examples.

Lemma findDirs_no_duplicates_witness :
  fs "root" = inr tree /\ validTree tree = true /\
  distinctNames tree = true /\
  findDirs (U := noTables) fs "root" = (["root"; "root/sub"], None) /\
  NoDup ["root"; "root/sub"].
Proof.
  repeat (split; [reflexivity|]).
  apply (findDirs_no_duplicates (U := noTables) fs "root" tree);
    reflexivity.
Defined.

Lemma findDirs_under_root_witness :
  fs "root" = inr tree /\ validTree tree = true /\
  findDirs (U := noTables) fs "root" = (["root"; "root/sub"], None) /\
  In "root/sub" ["root"; "root/sub"] /\
  exists names, rev (kept "root/sub") = (rev (kept "root") ++ names)%list.
Proof.
  repeat (split; [reflexivity|]).
  assert (Hin : In "root/sub" ["root"; "root/sub"]) by (simpl; auto).
  split; [exact Hin|].
  exact (findDirs_under_root (U := noTables) fs "root" tree
           ["root"; "root/sub"] "root/sub" eq_refl eq_refl eq_refl Hin).
Defined.

Lemma findDirs_cleaned_witness :
  fs "root" = inr tree /\ validTree tree = true /\
  findDirs (U := noTables) fs "root" = (["root"; "root/sub"], None) /\
  hd_error ["root"; "root/sub"] = Some "root" /\
  Forall (fun p => Clean p = p) (tl ["root"; "root/sub"]).
Proof.
  do 3 (split; [reflexivity|]).
  exact (findDirs_cleaned (U := noTables) fs "root" tree
           ["root"; "root/sub"] eq_refl eq_refl eq_refl).
Defined.

Lemma findDirs_succeeds_iff_witness :
  lockedFs "root" = inr lockedTree /\ validTree lockedTree = true /\
  (snd (findDirs (U := noTables) lockedFs "root") = None <->
   isDir lockedTree = true /\ firstReadErr "root" lockedTree = None).
Proof.
  repeat (split; [reflexivity|]).
  exact (findDirs_succeeds_iff (U := noTables) lockedFs "root" lockedTree
           eq_refl eq_refl).
Defined.

Lemma findDirs_ErrNotDirectory_iff_witness :
  findDirs (U := noTables) fs "root.txt"
  = ([], Some (Errorf_q_w (U := noTables) "root.txt" ErrNotDirectory)) /\
  (Is (Errorf_q_w (U := noTables) "root.txt" ErrNotDirectory)
      ErrNotDirectory = true <->
   exists d, fs "root.txt" = inr d /\ isDir d = false).
Proof.
  split; [reflexivity|].
  apply (findDirs_ErrNotDirectory_iff (U := noTables) fs "root.txt" []).
  - intros d Hd. injection Hd as <-. reflexivity.
  - reflexivity.
Defined.

Lemma findDirs_flat_witness :
  flatFs "flat" = inr flatTree /\
  findDirs (U := noTables) flatFs "flat" = (["flat"], None).
Proof.
  split; [reflexivity|].
  apply (findDirs_flat (U := noTables) flatFs "flat"
           [("a.txt", File); ("l", Symlink "a.txt")]);
    reflexivity.
Defined.

Lemma findDirs_parents_first_witness :
  fs "root" = inr tree /\ validTree tree = true /\
  findDirs (U := noTables) fs "root" = (["root"; "root/sub"], None) /\
  exists q name,
    In q ["root"] /\ validName name = true /\ "root/sub" = Join q name.
Proof.
  do 3 (split; [reflexivity|]).
  apply (proj2 (findDirs_parents_first (U := noTables) fs "root" tree
                  ["root"; "root/sub"] eq_refl eq_refl eq_refl)
           ["root"] "root/sub" []).
  - reflexivity.
  - discriminate.
Defined.

End EnumerationFacts.
